(** * Physics core of the two-ship GameLab demo

    A shallow embedding of the ship kinematics (GLShip.cpp), the photon
    queue (GLPhotonQueue.h) and the collision controller
    (GLCollisionController.cpp), with the properties the specification
    states about them.

    Numbers.  Every C++ [float] is modelled by the type [float] below: a
    real number, or [NaN].  Arithmetic on real numbers is exact (rounding
    and overflow of binary32 are not modelled); an operation that IEEE 754
    leaves without a real result (division by zero, square root of a
    negative number, any operation on NaN) yields [NaN], and every ordered
    comparison with [NaN] is false.  The properties stated on this
    embedding are equations between terms that the code computes, with the
    same operations on both sides, and order statements that rounding to
    nearest preserves; where a statement holds in exact arithmetic only,
    it says so.  Module [B32] embeds the ship-ship collision response a
    second time, in IEEE 754 binary32, and shows what rounding does to
    it.

    State.  The C++ functions mutate the ships and the queue through
    shared pointers; here each function takes the objects it touches and
    returns their new values.  The two ships of a ship-ship check are two
    distinct objects.  Of the scene graph only the animation frame of the
    ship node is kept, since [Ship::processTurn] computes with it.

    Sources not at hand.  GLShip.h and GLPhotonQueue.cpp are not among
    the sources: the constants RELOAD_RATE and MAX_AGE are parameters, and
    the bodies of the queue's methods follow the specification and the
    documentation in GLPhotonQueue.h.  cugl::Vec2 and cugl::Rect belong to
    the CUGL engine. *)

From Stdlib Require Import Reals Lra Lia ZArith Bool.
From Stdlib Require SpecFloat.
From stdpp Require Import base list.

(** ** Floating-point values *)

Inductive float : Type :=
  | Fin (r : R)
  | NaN.

Module F.

Definition lift1 (f : R -> R) (a : float) : float :=
  match a with
  | Fin u => Fin (f u)
  | NaN => NaN
  end.

Definition lift2 (f : R -> R -> R) (a b : float) : float :=
  match a, b with
  | Fin u, Fin v => Fin (f u v)
  | _, _ => NaN
  end.

Definition add : float -> float -> float := lift2 Rplus.
Definition sub : float -> float -> float := lift2 Rminus.
Definition mul : float -> float -> float := lift2 Rmult.
Definition neg : float -> float := lift1 Ropp.
Definition cosf : float -> float := lift1 cos.
Definition sinf : float -> float := lift1 sin.

(** [a / b].  A zero divisor gives [NaN]: this is IEEE's result for 0/0;
    the infinities of x/0 with x nonzero are not represented. *)
Definition div (a b : float) : float :=
  match a, b with
  | Fin u, Fin v => if Req_dec_T v 0 then NaN else Fin (u / v)
  | _, _ => NaN
  end.

Definition sqrt (a : float) : float :=
  match a with
  | Fin u => if Rlt_dec u 0 then NaN else Fin (R_sqrt.sqrt u)
  | NaN => NaN
  end.

(** C++ [a < b], [a <= b], [a == b], [a != b]. *)
Definition lt (a b : float) : bool :=
  match a, b with
  | Fin u, Fin v => if Rlt_dec u v then true else false
  | _, _ => false
  end.

Definition le (a b : float) : bool :=
  match a, b with
  | Fin u, Fin v => if Rle_dec u v then true else false
  | _, _ => false
  end.

Definition eq (a b : float) : bool :=
  match a, b with
  | Fin u, Fin v => if Req_dec_T u v then true else false
  | _, _ => false
  end.

Definition gt (a b : float) : bool := lt b a.
Definition ge (a b : float) : bool := le b a.
Definition ne (a b : float) : bool := negb (eq a b).

(** Conversion of a C++ integer. *)
Definition of_Z (z : Z) : float := Fin (IZR z).

Definition is_nan (a : float) : bool :=
  match a with
  | Fin _ => false
  | NaN => true
  end.

End F.

(** ** cugl::Vec2 *)

Module Vec2.

Record t : Type := mk { x : float; y : float }.

(** Modelled from the spec: cugl::Vec2, the 2D vector type of the CUGL
    engine, is an external primitive (add, scale, dot, length,
    normalize) whose source is not part of the repository.  [normalize]
    divides a vector by its length and leaves a vector of length zero as
    it is. *)
Definition add (a b : t) : t := mk (F.add (x a) (x b)) (F.add (y a) (y b)).
Definition sub (a b : t) : t := mk (F.sub (x a) (x b)) (F.sub (y a) (y b)).
Definition scale (a : t) (k : float) : t := mk (F.mul (x a) k) (F.mul (y a) k).
Definition dot (a b : t) : float :=
  F.add (F.mul (x a) (x b)) (F.mul (y a) (y b)).
Definition length (a : t) : float :=
  F.sqrt (F.add (F.mul (x a) (x a)) (F.mul (y a) (y a))).
Definition normalize (a : t) : t :=
  let n := length a in
  if F.eq n (Fin 0) then a else scale a (F.div (Fin 1) n).

Definition finite (a : t) : Prop := exists u v, a = mk (Fin u) (Fin v).

End Vec2.

(** ** Ship (GLShip.cpp) *)

Module Ship.

Definition SHIP_SIZE : Z := 81.
Definition SHIP_IMG_LEFT : Z := 0.
Definition SHIP_IMG_FLAT : Z := 9.
Definition SHIP_IMG_RIGHT : Z := 17.
Definition THRUST_FACTOR : float := Fin (4 / 10).
Definition BANK_FACTOR : float := Fin (1 / 10).
Definition MAXIMUM_BANK : float := Fin 5.
Definition FORWARD_DAMPING : float := Fin (9 / 10).
Definition ANGULAR_DAMPING : float := Fin (875 / 1000).
Definition M_PI : float := Fin PI.
Definition M_PI_2 : float := Fin (PI / 2).

(** The physical state of a ship.  [shipNode] is the animation frame
    of the ship's scene-graph node, [None] while the node is nullptr;
    tints and textures play no part in the physics and are left out. *)
Record t : Type := mk {
  pos : Vec2.t;
  vel : Vec2.t;
  ang : float;
  dang : float;
  refire : Z;
  radius : float;
  mass : float;
  sid : Z;
  shipNode : option Z
}.

Definition getPosition := pos.
Definition getVelocity := vel.
Definition getRadius := radius.
Definition getMass := mass.
Definition getSID := sid.

Definition setPosition (s : t) (value : Vec2.t) : t :=
  mk value (vel s) (ang s) (dang s) (refire s) (radius s) (mass s) (sid s)
     (shipNode s).

Definition setVelocity (s : t) (value : Vec2.t) : t :=
  mk (pos s) value (ang s) (dang s) (refire s) (radius s) (mass s) (sid s)
     (shipNode s).

Definition setAngle (s : t) (value : float) : t :=
  mk (pos s) (vel s) value (dang s) (refire s) (radius s) (mass s) (sid s)
     (shipNode s).

Definition set_dang (s : t) (value : float) : t :=
  mk (pos s) (vel s) (ang s) value (refire s) (radius s) (mass s) (sid s)
     (shipNode s).

Definition set_refire (s : t) (value : Z) : t :=
  mk (pos s) (vel s) (ang s) (dang s) value (radius s) (mass s) (sid s)
     (shipNode s).

Definition setFrame (s : t) (frame : Z) : t :=
  mk (pos s) (vel s) (ang s) (dang s) (refire s) (radius s) (mass s) (sid s)
     (match shipNode s with Some _ => Some frame | None => None end).

(** The constructor's defaults: radius SHIP_SIZE/2 (integer division),
    mass 1, angle, angular rate and refire counter 0. *)
Definition default (id : Z) : t :=
  mk (Vec2.mk (Fin 0) (Fin 0)) (Vec2.mk (Fin 0) (Fin 0)) (Fin 0) (Fin 0) 0
     (F.of_Z (SHIP_SIZE / 2)) (Fin 1) id None.

(** A C++ [int] after an increment: two's complement wrap-around. *)
Definition wrap_int (z : Z) : Z :=
  ((z + 2 ^ 31) mod 2 ^ 32 - 2 ^ 31)%Z.

(** Ship::processTurn *)
Definition processTurn (s : t) (turn : float) : t :=
  let frame := match shipNode s with None => 0%Z | Some f => f end in
  let '(s, frame) :=
    if F.ne turn (Fin 0) then
      let s := set_dang s (F.sub (dang s) (F.div turn BANK_FACTOR)) in
      let s :=
        if F.lt (dang s) (F.neg MAXIMUM_BANK) then
          set_dang s (F.neg MAXIMUM_BANK)
        else if F.gt (dang s) MAXIMUM_BANK then
          set_dang s MAXIMUM_BANK
        else s in
      let frame :=
        if F.gt turn (Fin 0) && (frame <? SHIP_IMG_RIGHT)%Z then
          (frame + 1)%Z
        else if F.lt turn (Fin 0) && (SHIP_IMG_LEFT <? frame)%Z then
          (frame - 1)%Z
        else frame in
      (s, frame)
    else
      let s :=
        if F.ne (dang s) (Fin 0) then
          set_dang s (F.mul (dang s) ANGULAR_DAMPING)
        else s in
      let frame :=
        if (frame <? SHIP_IMG_FLAT)%Z then (frame + 1)%Z
        else if (SHIP_IMG_FLAT <? frame)%Z then (frame - 1)%Z
        else frame in
      (s, frame) in
  setFrame s frame.

Section Move.

(** RELOAD_RATE is defined in GLShip.h, which is not among the
    sources; it is a parameter of the embedding. *)
Variable RELOAD_RATE : Z.

(** Ship::move *)
Definition move (s : t) (forward turn : float) : t :=
  let s := processTurn s turn in
  let s :=
    if F.ne forward (Fin 0) then
      let rads := F.add (F.div (F.mul M_PI (ang s)) (Fin 180)) M_PI_2 in
      let dir := Vec2.mk (F.cosf rads) (F.sinf rads) in
      setVelocity s
        (Vec2.add (vel s) (Vec2.scale (Vec2.scale dir forward) THRUST_FACTOR))
    else
      setVelocity s (Vec2.scale (vel s) FORWARD_DAMPING) in
  let s := setAngle s (F.add (ang s) (dang s)) in
  let s :=
    if F.gt (ang s) (Fin 360) then setAngle s (F.sub (ang s) (Fin 360))
    else s in
  let s :=
    if F.lt (ang s) (Fin 0) then setAngle s (F.add (ang s) (Fin 360))
    else s in
  let s := setPosition s (Vec2.add (pos s) (vel s)) in
  if (refire s <=? RELOAD_RATE)%Z then
    set_refire s (wrap_int (refire s + 1))
  else s.

End Move.

Definition TARGET_DIST : Z := 100.

(** Ship::init: the position and the facing are set, the rest is kept. *)
Definition init (s : t) (x y ang : float) : t :=
  setAngle (setPosition s (Vec2.mk x y)) ang.

(** Ship::acquireTarget.  The method stores the offset of the target
    reticule in the field [_tofs], which only the drawing code reads; the
    embedding returns the value stored. *)
Definition acquireTarget (s other : t) : Vec2.t :=
  let tofs := Vec2.sub (pos other) (pos s) in
  let tofs := Vec2.normalize tofs in
  Vec2.scale tofs (F.of_Z TARGET_DIST).

End Ship.

(** ** PhotonQueue (GLPhotonQueue.h) *)

Module Photon.

Record t : Type := mk {
  pos : Vec2.t;
  vel : Vec2.t;
  ship : Z;
  age : Z;
  scale : float
}.

Definition set_age (p : t) (a : Z) : t :=
  mk (pos p) (vel p) (ship p) a (scale p).

(** Modelled from the spec: the bodies of PhotonQueue::Photon's methods
    are in GLPhotonQueue.cpp, which is not among the sources.  A photon
    "do[es] not exist" until allocated (age -1); allocation sets owner,
    position and velocity with age 0 and scale 1; an update integrates the
    position by the velocity and increments the age by 1; destroying a
    photon sets its age to the maximum age. *)
Definition empty : t :=
  mk (Vec2.mk (Fin 0) (Fin 0)) (Vec2.mk (Fin 0) (Fin 0)) 0 (-1) (Fin 1).

Definition allocate (id : Z) (p v : Vec2.t) : t := mk p v id 0 (Fin 1).

Definition update (p : t) : t :=
  mk (Vec2.add (pos p) (vel p)) (vel p) (ship p) (age p + 1) (scale p).

Definition destroy (MAX_AGE : Z) (p : t) : t := set_age p MAX_AGE.

End Photon.

Module PhotonQueue.

(** [texture] holds the width and height of the photon image when one is
    set; [queue] is the preallocated vector used as a circular array. *)
Record t : Type := mk {
  texture : option (Z * Z);
  queue : list Photon.t;
  qhead : nat;
  qtail : nat;
  qsize : nat
}.

Definition getTexture := texture.
Definition size (q : t) : nat := qsize q.
Definition capacity (q : t) : nat := length (queue q).

Definition set_queue (q : t) (l : list Photon.t) : t :=
  mk (texture q) l (qhead q) (qtail q) (qsize q).

(** The cell of the vector that holds the photon at queue position [pos]. *)
Definition slot (q : t) (pos : nat) : nat := (qhead q + pos) mod capacity q.

(** The representation invariant of the circular array: the head is a
    cell of the vector, the live count is at most the capacity, and the
    tail is the cell after the last live photon. *)
Definition wf (q : t) : Prop :=
  (qhead q < capacity q)%nat /\ (qsize q <= capacity q)%nat /\
  qtail q = slot q (qsize q).

(** Modelled from the spec: PhotonQueue::init, addPhoton, get and update
    are only declared in GLPhotonQueue.h; their bodies are in
    GLPhotonQueue.cpp, which is not among the sources.
    - init(max) preallocates [max] photons and starts empty;
    - allocate writes one photon at the tail, advances the tail and
      increments the live count, and does nothing when the pool is full;
    - get(pos) is the live photon at position 0..size-1 counted from the
      head (0 the oldest), and null outside that range;
    - update moves every live photon, then retires from the head the
      photons whose age has reached MAX_AGE, advancing the head and
      decrementing the live count for each. *)
Definition init (max : nat) : t := mk None (replicate max Photon.empty) 0 0 0.

Definition allocate (q : t) (id : Z) (p v : Vec2.t) : t :=
  if (qsize q <? capacity q)%nat then
    mk (texture q) (<[qtail q := Photon.allocate id p v]> (queue q))
       (qhead q) ((qtail q + 1) mod capacity q) (qsize q + 1)
  else q.

Definition get (q : t) (pos : nat) : option Photon.t :=
  if (pos <? qsize q)%nat then queue q !! slot q pos else None.

(** Writing through the pointer that [get q pos] returned. *)
Definition put (q : t) (pos : nat) (p : Photon.t) : t :=
  set_queue q (<[slot q pos := p]> (queue q)).

(** The live photons, oldest first. *)
Definition live (q : t) : list Photon.t :=
  omap (get q) (seq 0 (qsize q)).

(** The first loop of update: the photon at position [ii] is moved in
    place. *)
Definition moveStep (q : t) (ii : nat) : t :=
  match get q ii with
  | Some p => put q ii (Photon.update p)
  | None => q
  end.

Definition moveAll (q : t) : t := foldl moveStep q (seq 0 (qsize q)).

(** Retiring the head: the head moves one cell on, the count drops. *)
Definition pop (q : t) : t :=
  mk (texture q) (queue q) ((qhead q + 1) mod capacity q) (qtail q)
     (qsize q - 1).

Section Update.

Variable MAX_AGE : Z.

(** The retirement loop: [fuel] bounds the iterations, and the live
    count is enough, as every iteration decrements it. *)
Fixpoint retire (fuel : nat) (q : t) : t :=
  match fuel with
  | O => q
  | S fuel =>
      match get q 0 with
      | Some p =>
          if (MAX_AGE <=? Photon.age p)%Z then retire fuel (pop q) else q
      | None => q
      end
  end.

Definition update (q : t) : t :=
  let q := moveAll q in
  retire (qsize q) q.

End Update.

End PhotonQueue.

(** ** Input controller (GLInputController.cpp) *)

Module InputController.

(** The key codes of cugl::KeyCode that the controller asks about; every
    other key is [OTHER]. *)
Inductive KeyCode : Type :=
  | ARROW_UP | ARROW_DOWN | ARROW_LEFT | ARROW_RIGHT | SPACE
  | W | S | A | D | X
  | OTHER (code : Z).

(** The state of the keyboard: cugl::Keyboard::keyDown. *)
Definition Keyboard : Type := KeyCode -> bool.

Record t : Type := mk {
  player : Z;
  forward : float;
  turning : float;
  didFire : bool
}.

Definition getPlayer := player.
Definition getForward := forward.
Definition getTurn := turning.
Definition didPressFire := didFire.

(** The constructor. *)
Definition new : t := mk 0 (Fin 0) (Fin 0) false.

(** InputController::init *)
Definition init (c : t) (id : Z) : t :=
  mk id (forward c) (turning c) (didFire c).

(** InputController::readInput, the keyboard branch (CU_MOBILE not
    defined). *)
Definition readInput (keys : Keyboard) (c : t) : t :=
  let '(up, down, left_, right_, shoot) :=
    if (player c =? 0)%Z then
      (ARROW_UP, ARROW_DOWN, ARROW_LEFT, ARROW_RIGHT, SPACE)
    else (W, S, A, D, X) in
  let forward := Fin 0 in
  let turning := Fin 0 in
  let didFire := false in
  let forward :=
    if keys up && negb (keys down) then Fin 1
    else if keys down && negb (keys up) then Fin (-1)
    else forward in
  let turning :=
    if keys left_ && negb (keys right_) then Fin (-1)
    else if keys right_ && negb (keys left_) then Fin 1
    else turning in
  let didFire := if keys shoot then true else didFire in
  mk (player c) forward turning didFire.

End InputController.

(** ** Collision controller (GLCollisionController.cpp) *)

Module collisions.

Definition COLLISION_COEFF : float := Fin (1 / 10).
Definition PHOTON_MASS : float := Fin 5.

(** checkForCollision(ship1, ship2) *)
Definition checkForCollision (ship1 ship2 : Ship.t) : Ship.t * Ship.t :=
  let norm := Vec2.sub (Ship.getPosition ship1) (Ship.getPosition ship2) in
  let distance := Vec2.length norm in
  let impactDistance := F.add (Ship.getRadius ship1) (Ship.getRadius ship2) in
  let norm := Vec2.normalize norm in
  if F.lt distance impactDistance then
    let temp := Vec2.scale norm (F.div (F.sub impactDistance distance) (Fin 2)) in
    let ship1 := Ship.setPosition ship1 (Vec2.add (Ship.getPosition ship1) temp) in
    let ship2 := Ship.setPosition ship2 (Vec2.sub (Ship.getPosition ship2) temp) in
    let vel := Vec2.sub (Ship.getVelocity ship1) (Ship.getVelocity ship2) in
    let impulse :=
      F.div (F.mul (F.neg (F.add (Fin 1) COLLISION_COEFF)) (Vec2.dot norm vel))
            (F.mul (Vec2.dot norm norm)
                   (F.add (F.div (Fin 1) (Ship.getMass ship1))
                          (F.div (Fin 1) (Ship.getMass ship2)))) in
    let temp := Vec2.scale norm (F.div impulse (Ship.getMass ship1)) in
    let ship1 := Ship.setVelocity ship1 (Vec2.add (Ship.getVelocity ship1) temp) in
    let temp := Vec2.scale norm (F.div impulse (Ship.getMass ship2)) in
    let ship2 := Ship.setVelocity ship2 (Vec2.sub (Ship.getVelocity ship2) temp) in
    (ship1, ship2)
  else (ship1, ship2).

Section Photons.

(** MAX_AGE is defined in GLPhotonQueue.cpp, which is not among the
    sources; it is a parameter of the embedding. *)
Variable MAX_AGE : Z.

(** The photon radius taken from the texture, 0 without a texture. *)
Definition photonRadius (photons : PhotonQueue.t) : float :=
  match PhotonQueue.getTexture photons with
  | Some (w, h) => F.div (F.of_Z (Z.max w h)) (Fin 2)
  | None => Fin 0
  end.

(** The response to one photon that is not the ship's own: the part of
    the loop body under the ownership test. *)
Definition hitPhoton (pradius : float) (ship : Ship.t) (photon : Photon.t)
  : Ship.t * Photon.t :=
  let norm := Vec2.sub (Ship.getPosition ship) (Photon.pos photon) in
  let distance := Vec2.length norm in
  let impactDistance :=
    F.add (Ship.getRadius ship) (F.mul pradius (Photon.scale photon)) in
  let norm := Vec2.normalize norm in
  if F.lt distance impactDistance then
    let temp := Vec2.scale norm (F.div (F.sub impactDistance distance) (Fin 2)) in
    let ship := Ship.setPosition ship (Vec2.add (Ship.getPosition ship) temp) in
    let vel := Vec2.sub (Ship.getVelocity ship) (Photon.vel photon) in
    let impulse :=
      F.div (F.mul (F.neg (F.add (Fin 1) COLLISION_COEFF)) (Vec2.dot norm vel))
            (F.mul (Vec2.dot norm norm)
                   (F.add (F.div (Fin 1) (Ship.getMass ship))
                          (F.div (Fin 1) PHOTON_MASS))) in
    let temp := Vec2.scale norm (F.div impulse (Ship.getMass ship)) in
    let ship := Ship.setVelocity ship (Vec2.add (Ship.getVelocity ship) temp) in
    (ship, Photon.destroy MAX_AGE photon)
  else (ship, photon).

(** One iteration of the loop over the queue positions. *)
Definition checkPhoton (pradius : float) (st : Ship.t * PhotonQueue.t)
  (ii : nat) : Ship.t * PhotonQueue.t :=
  let '(ship, photons) := st in
  match PhotonQueue.get photons ii with
  | Some photon =>
      if negb (Photon.ship photon =? Ship.getSID ship)%Z then
        let '(ship, photon) := hitPhoton pradius ship photon in
        (ship, PhotonQueue.put photons ii photon)
      else (ship, photons)
  | None => (ship, photons)
  end.

(** checkForCollision(ship, photons) *)
Definition checkForCollisionPhotons (ship : Ship.t) (photons : PhotonQueue.t)
  : Ship.t * PhotonQueue.t :=
  let pradius := photonRadius photons in
  foldl (checkPhoton pradius) (ship, photons)
        (seq 0 (PhotonQueue.size photons)).

End Photons.

(** cugl::Rect: origin and size. *)
Record Rect : Type := mkRect {
  origin_x : float;
  origin_y : float;
  size_width : float;
  size_height : float
}.

(** checkInBounds(ship, bounds).  [vel] and [pos] are the local copies
    the function works on; each branch writes both back to the ship. *)
Definition checkInBounds (ship : Ship.t) (bounds : Rect) : Ship.t :=
  let vel := Ship.getVelocity ship in
  let pos := Ship.getPosition ship in
  let '(ship, vel, pos) :=
    if F.le (Vec2.x pos) (origin_x bounds) then
      let vel := Vec2.mk (F.neg (Vec2.x vel)) (Vec2.y vel) in
      let pos := Vec2.mk (origin_x bounds) (Vec2.y pos) in
      (Ship.setPosition (Ship.setVelocity ship vel) pos, vel, pos)
    else if F.ge (Vec2.x pos) (F.add (size_width bounds) (origin_x bounds)) then
      let vel := Vec2.mk (F.neg (Vec2.x vel)) (Vec2.y vel) in
      let pos :=
        Vec2.mk (F.sub (F.add (size_width bounds) (origin_x bounds)) (Fin 1))
                (Vec2.y pos) in
      (Ship.setPosition (Ship.setVelocity ship vel) pos, vel, pos)
    else (ship, vel, pos) in
  if F.le (Vec2.y pos) (origin_y bounds) then
    let vel := Vec2.mk (Vec2.x vel) (F.neg (Vec2.y vel)) in
    let pos := Vec2.mk (Vec2.x pos) (origin_y bounds) in
    Ship.setPosition (Ship.setVelocity ship vel) pos
  else if F.ge (Vec2.y pos) (F.add (size_height bounds) (origin_y bounds)) then
    let vel := Vec2.mk (Vec2.x vel) (F.neg (Vec2.y vel)) in
    let pos :=
      Vec2.mk (Vec2.x pos)
              (F.sub (F.add (size_height bounds) (origin_y bounds)) (Fin 1)) in
    Ship.setPosition (Ship.setVelocity ship vel) pos
  else ship.

(** The body of the loop of checkInBounds(photons, bounds) for one
    photon: position and velocity are reflected in place. *)
Definition bouncePhoton (photon : Photon.t) (bounds : Rect) : Photon.t :=
  let photon :=
    if F.le (Vec2.x (Photon.pos photon)) (origin_x bounds) then
      Photon.mk
        (Vec2.mk (origin_x bounds) (Vec2.y (Photon.pos photon)))
        (Vec2.mk (F.neg (Vec2.x (Photon.vel photon)))
                 (Vec2.y (Photon.vel photon)))
        (Photon.ship photon) (Photon.age photon) (Photon.scale photon)
    else if F.ge (Vec2.x (Photon.pos photon))
                 (F.add (size_width bounds) (origin_x bounds)) then
      Photon.mk
        (Vec2.mk (F.sub (F.add (size_width bounds) (origin_x bounds)) (Fin 1))
                 (Vec2.y (Photon.pos photon)))
        (Vec2.mk (F.neg (Vec2.x (Photon.vel photon)))
                 (Vec2.y (Photon.vel photon)))
        (Photon.ship photon) (Photon.age photon) (Photon.scale photon)
    else photon in
  if F.le (Vec2.y (Photon.pos photon)) (origin_y bounds) then
    Photon.mk
      (Vec2.mk (Vec2.x (Photon.pos photon)) (origin_y bounds))
      (Vec2.mk (Vec2.x (Photon.vel photon))
               (F.neg (Vec2.y (Photon.vel photon))))
      (Photon.ship photon) (Photon.age photon) (Photon.scale photon)
  else if F.ge (Vec2.y (Photon.pos photon))
               (F.add (size_height bounds) (origin_y bounds)) then
    Photon.mk
      (Vec2.mk (Vec2.x (Photon.pos photon))
               (F.sub (F.add (size_height bounds) (origin_y bounds)) (Fin 1)))
      (Vec2.mk (Vec2.x (Photon.vel photon))
               (F.neg (Vec2.y (Photon.vel photon))))
      (Photon.ship photon) (Photon.age photon) (Photon.scale photon)
  else photon.

(** One iteration of the loop of checkInBounds(photons, bounds). *)
Definition boundPhoton (bounds : Rect) (photons : PhotonQueue.t) (ii : nat)
  : PhotonQueue.t :=
  match PhotonQueue.get photons ii with
  | Some photon => PhotonQueue.put photons ii (bouncePhoton photon bounds)
  | None => photons
  end.

(** checkInBounds(photons, bounds) *)
Definition checkInBoundsPhotons (photons : PhotonQueue.t) (bounds : Rect)
  : PhotonQueue.t :=
  foldl (boundPhoton bounds) photons (seq 0 (PhotonQueue.size photons)).

End collisions.

(** * The ship-ship response in IEEE 754 binary32

    The embedding above computes with exact real numbers.  Here
    checkForCollision(ship1, ship2) is embedded a second time over
    binary32 numbers, with every operation rounded to nearest, ties to
    even, as the C++ [float] operations are when each is carried out in
    single precision (no fused multiply-add, no wider intermediate
    results): the operations are those of the Standard Library's SpecFloat
    at precision 24 and maximal exponent 128.  It is used to exhibit what
    rounding does to statements that hold in exact arithmetic. *)

Module B32.

Definition prec : Z := 24.
Definition emax : Z := 128.

Definition float32 : Type := SpecFloat.spec_float.

(** Conversion of a C++ integer constant. *)
Definition of_Z (z : Z) : float32 :=
  SpecFloat.binary_normalize prec emax z 0 false.

Definition add : float32 -> float32 -> float32 := SpecFloat.SFadd prec emax.
Definition sub : float32 -> float32 -> float32 := SpecFloat.SFsub prec emax.
Definition mul : float32 -> float32 -> float32 := SpecFloat.SFmul prec emax.
Definition div : float32 -> float32 -> float32 := SpecFloat.SFdiv prec emax.
Definition sqrt : float32 -> float32 := SpecFloat.SFsqrt prec emax.
Definition neg : float32 -> float32 := SpecFloat.SFopp.
Definition lt : float32 -> float32 -> bool := SpecFloat.SFltb.
Definition eq : float32 -> float32 -> bool := SpecFloat.SFeqb.

Module Vec2.

Record t : Type := mk { x : float32; y : float32 }.

(** Modelled from the spec: cugl::Vec2, as in the exact embedding. *)
Definition add (a b : t) : t := mk (B32.add (x a) (x b)) (B32.add (y a) (y b)).
Definition sub (a b : t) : t := mk (B32.sub (x a) (x b)) (B32.sub (y a) (y b)).
Definition scale (a : t) (k : float32) : t :=
  mk (B32.mul (x a) k) (B32.mul (y a) k).
Definition dot (a b : t) : float32 :=
  B32.add (B32.mul (x a) (x b)) (B32.mul (y a) (y b)).
Definition length (a : t) : float32 :=
  B32.sqrt (B32.add (B32.mul (x a) (x a)) (B32.mul (y a) (y a))).
Definition normalize (a : t) : t :=
  let n := length a in
  if B32.eq n (of_Z 0) then a else scale a (B32.div (of_Z 1) n).

End Vec2.

Module Ship.

(** The fields of a ship that the ship-ship response reads or writes. *)
Record t : Type := mk {
  pos : Vec2.t;
  vel : Vec2.t;
  radius : float32;
  mass : float32
}.

Definition getPosition := pos.
Definition getVelocity := vel.
Definition getRadius := radius.
Definition getMass := mass.

Definition setPosition (s : t) (value : Vec2.t) : t :=
  mk value (vel s) (radius s) (mass s).

Definition setVelocity (s : t) (value : Vec2.t) : t :=
  mk (pos s) value (radius s) (mass s).

End Ship.

(** 0.1f, the binary32 number nearest to 1/10. *)
Definition COLLISION_COEFF : float32 := div (of_Z 1) (of_Z 10).

(** checkForCollision(ship1, ship2) *)
Definition checkForCollision (ship1 ship2 : Ship.t) : Ship.t * Ship.t :=
  let norm := Vec2.sub (Ship.getPosition ship1) (Ship.getPosition ship2) in
  let distance := Vec2.length norm in
  let impactDistance := add (Ship.getRadius ship1) (Ship.getRadius ship2) in
  let norm := Vec2.normalize norm in
  if lt distance impactDistance then
    let temp := Vec2.scale norm (div (sub impactDistance distance) (of_Z 2)) in
    let ship1 := Ship.setPosition ship1 (Vec2.add (Ship.getPosition ship1) temp) in
    let ship2 := Ship.setPosition ship2 (Vec2.sub (Ship.getPosition ship2) temp) in
    let vel := Vec2.sub (Ship.getVelocity ship1) (Ship.getVelocity ship2) in
    let impulse :=
      div (mul (neg (add (of_Z 1) COLLISION_COEFF)) (Vec2.dot norm vel))
          (mul (Vec2.dot norm norm)
               (add (div (of_Z 1) (Ship.getMass ship1))
                    (div (of_Z 1) (Ship.getMass ship2)))) in
    let temp := Vec2.scale norm (div impulse (Ship.getMass ship1)) in
    let ship1 := Ship.setVelocity ship1 (Vec2.add (Ship.getVelocity ship1) temp) in
    let temp := Vec2.scale norm (div impulse (Ship.getMass ship2)) in
    let ship2 := Ship.setVelocity ship2 (Vec2.sub (Ship.getVelocity ship2) temp) in
    (ship1, ship2)
  else (ship1, ship2).

End B32.

(** * Notions used in the statements *)

(** The direction of thrust in the words of the specification: the unit
    vector of the facing angle, given in degrees and measured from the
    vertical axis. *)
Definition unit_vector (deg : float) : Vec2.t :=
  let rads := F.add (F.div (F.mul Ship.M_PI deg) (Fin 180)) Ship.M_PI_2 in
  Vec2.mk (F.cosf rads) (F.sinf rads).

(** The quantities of the collision response in the words of the
    specification. *)
Definition distance (a b : Ship.t) : float :=
  Vec2.length (Vec2.sub (Ship.pos a) (Ship.pos b)).

Definition impactDistance (a b : Ship.t) : float :=
  F.add (Ship.radius a) (Ship.radius b).

Definition normal (a b : Ship.t) : Vec2.t :=
  Vec2.normalize (Vec2.sub (Ship.pos a) (Ship.pos b)).

Definition halfOverlap (a b : Ship.t) : float :=
  F.div (F.sub (impactDistance a b) (distance a b)) (Fin 2).

(** impulse = -(1+e) (normal . relVel) / (normal . normal (1/massA + 1/massB)) *)
Definition impulse (a b : Ship.t) : float :=
  let relVel := Vec2.sub (Ship.vel a) (Ship.vel b) in
  F.div
    (F.mul (F.neg (F.add (Fin 1) collisions.COLLISION_COEFF))
       (Vec2.dot (normal a b) relVel))
    (F.mul (Vec2.dot (normal a b) (normal a b))
       (F.add (F.div (Fin 1) (Ship.mass a)) (F.div (Fin 1) (Ship.mass b)))).

(** Total linear momentum massA * velocityA + massB * velocityB. *)
Definition momentum (a b : Ship.t) : Vec2.t :=
  Vec2.add (Vec2.scale (Ship.vel a) (Ship.mass a))
           (Vec2.scale (Ship.vel b) (Ship.mass b)).

(** Position and velocity of the ship are pairs of real numbers. *)
Definition finite_ship (s : Ship.t) : Prop :=
  Vec2.finite (Ship.pos s) /\ Vec2.finite (Ship.vel s).

Definition positive_mass (s : Ship.t) : Prop :=
  F.lt (Fin 0) (Ship.mass s) = true.

(** The same quantities for the binary32 embedding. *)
Definition distance32 (a b : B32.Ship.t) : B32.float32 :=
  B32.Vec2.length (B32.Vec2.sub (B32.Ship.pos a) (B32.Ship.pos b)).

Definition impactDistance32 (a b : B32.Ship.t) : B32.float32 :=
  B32.add (B32.Ship.radius a) (B32.Ship.radius b).

(** massA * velocityA + massB * velocityB, itself evaluated in binary32. *)
Definition momentum32 (a b : B32.Ship.t) : B32.Vec2.t :=
  B32.Vec2.add (B32.Vec2.scale (B32.Ship.vel a) (B32.Ship.mass a))
               (B32.Vec2.scale (B32.Ship.vel b) (B32.Ship.mass b)).

(** The exact value of a finite binary32 number, counted in units of
    2^-149, the smallest positive binary32 number: the value is
    [units f] / 2^149, and [units] is an integer. *)
Definition units (f : B32.float32) : Z :=
  match f with
  | SpecFloat.S754_finite s m e =>
      ((if s then -1 else 1) * Z.pos m * 2 ^ (e + 149))%Z
  | _ => 0%Z
  end.

(** The x component of massA * velocityA + massB * velocityB as an exact
    number, in units of 2^-298: no rounding takes place here. *)
Definition exact_momentum_x (a b : B32.Ship.t) : Z :=
  (units (B32.Ship.mass a) * units (B32.Vec2.x (B32.Ship.vel a)) +
   units (B32.Ship.mass b) * units (B32.Vec2.x (B32.Ship.vel b)))%Z.

(** The photons left once the old ones have been retired from the head of
    the list [l] of live photons, oldest first. *)
Fixpoint drop_old (MAX_AGE : Z) (l : list Photon.t) : list Photon.t :=
  match l with
  | [] => []
  | p :: l' => if (MAX_AGE <=? Photon.age p)%Z then drop_old MAX_AGE l' else l
  end.

(** The live photons are listed oldest first: ages do not increase from
    the head to the tail. *)
Definition oldest_first (l : list Photon.t) : Prop :=
  forall i j p p', (i <= j)%nat -> l !! i = Some p -> l !! j = Some p' ->
                   (Photon.age p' <= Photon.age p)%Z.

(** The ship and the queue after the first [k] iterations of the loop of
    [checkForCollision(ship, photons)]. *)
Definition after_iterations (MAX_AGE : Z) (ship : Ship.t)
  (photons : PhotonQueue.t) (k : nat) : Ship.t * PhotonQueue.t :=
  foldl (collisions.checkPhoton MAX_AGE (collisions.photonRadius photons))
    (ship, photons) (seq 0 k).

(** What an iteration preserves: the ship's SID, the shape of the queue,
    and every cell that holds one of the ship's own photons. *)
Definition preserved (s : Ship.t) (q : PhotonQueue.t)
  (r : Ship.t * PhotonQueue.t) : Prop :=
  Ship.sid (fst r) = Ship.sid s /\
  PhotonQueue.qhead (snd r) = PhotonQueue.qhead q /\
  PhotonQueue.qsize (snd r) = PhotonQueue.qsize q /\
  PhotonQueue.capacity (snd r) = PhotonQueue.capacity q /\
  forall c p, PhotonQueue.queue q !! c = Some p -> Photon.ship p = Ship.sid s ->
              PhotonQueue.queue (snd r) !! c = Some p.


(** The ship after one [Ship::move] per frame, with (forward, turn) as
    the intents of each frame. *)
Definition fly (RELOAD_RATE : Z) (s : Ship.t) (intents : list (float * float))
  : Ship.t :=
  foldl (fun s i => Ship.move RELOAD_RATE s (fst i) (snd i)) s intents.

(** Facing angle within [0, 360] and angular rate within the bank
    limits. *)
Definition steady (s : Ship.t) : Prop :=
  exists a d, Ship.ang s = Fin a /\ Ship.dang s = Fin d /\
              (0 <= a <= 360)%R /\ (-5 <= d <= 5)%R.

(** One axis of the reflection: position [p] and velocity [v] against the
    low edge [lo] and the extent [w]. *)
Definition reflect_pos (p lo w : float) : float :=
  if F.le p lo then lo
  else if F.ge p (F.add w lo) then F.sub (F.add w lo) (Fin 1)
  else p.

Definition reflect_vel (p v lo w : float) : float :=
  if F.le p lo then F.neg v
  else if F.ge p (F.add w lo) then F.neg v
  else v.

(** A loop that rewrites the photon at each position of [l] in place. *)
Definition rewriteAt (f : Photon.t -> Photon.t) (q : PhotonQueue.t)
  (ii : nat) : PhotonQueue.t :=
  match PhotonQueue.get q ii with
  | Some p => PhotonQueue.put q ii (f p)
  | None => q
  end.

(** The fields of a ship that no collision response touches. *)
Definition same_body (s s' : Ship.t) : Prop :=
  Ship.sid s' = Ship.sid s /\ Ship.mass s' = Ship.mass s /\
  Ship.radius s' = Ship.radius s /\ Ship.ang s' = Ship.ang s /\
  Ship.dang s' = Ship.dang s /\ Ship.refire s' = Ship.refire s /\
  Ship.shipNode s' = Ship.shipNode s.

(** Cell by cell, the vector [l'] holds the photons of [l], each as it was
    or destroyed. *)
Definition same_or_destroyed (M : Z) (l l' : list Photon.t) : Prop :=
  length l' = length l /\
  forall c p', l' !! c = Some p' ->
    exists p, l !! c = Some p /\ (p' = p \/ p' = Photon.destroy M p).

(** The keys that [readInput] polls for a player. *)
Definition controls (player : Z) : list InputController.KeyCode :=
  if (player =? 0)%Z then
    [InputController.ARROW_UP; InputController.ARROW_DOWN;
     InputController.ARROW_LEFT; InputController.ARROW_RIGHT;
     InputController.SPACE]
  else
    [InputController.W; InputController.S; InputController.A;
     InputController.D; InputController.X].

(** The intents that a controller reads from each keyboard state of a
    list, as (forward, turn). *)
Definition intents_of (c : InputController.t)
  (keyboards : list InputController.Keyboard) : list (float * float) :=
  map (fun keys =>
         (InputController.getForward (InputController.readInput keys c),
          InputController.getTurn (InputController.readInput keys c)))
      keyboards.

(** * States used in the examples *)

(** A ship turning at the maximum rate, five degrees short of a full
    turn. *)
Definition ship_at_355 : Ship.t :=
  Ship.mk (Vec2.mk (Fin 0) (Fin 0)) (Vec2.mk (Fin 0) (Fin 0)) (Fin 355) (Fin 5)
    0 (Fin 40) (Fin 1) 0 None.

(** A ship on the left edge of a playfield, moving left. *)
Definition ship_on_left_edge : Ship.t :=
  Ship.mk (Vec2.mk (Fin 0) (Fin 50)) (Vec2.mk (Fin (-3)) (Fin 2)) (Fin 0)
    (Fin 0) 0 (Fin 40) (Fin 1) 0 None.

Definition playfield : collisions.Rect :=
  collisions.mkRect (Fin 0) (Fin 0) (Fin 1024) (Fin 576).

(** The head-on scenario of the specification: radius 40 each, 70 apart,
    velocities (5,0) and (-5,0), mass 1. *)
Definition ship_left : Ship.t :=
  Ship.mk (Vec2.mk (Fin 0) (Fin 0)) (Vec2.mk (Fin 5) (Fin 0)) (Fin 0) (Fin 0)
    0 (Fin 40) (Fin 1) 0 None.

Definition ship_right : Ship.t :=
  Ship.mk (Vec2.mk (Fin 70) (Fin 0)) (Vec2.mk (Fin (-5)) (Fin 0)) (Fin 0)
    (Fin 0) 0 (Fin 40) (Fin 1) 1 None.

Definition ship_here (vx : R) (id : Z) : Ship.t :=
  Ship.mk (Vec2.mk (Fin 0) (Fin 0)) (Vec2.mk (Fin vx) (Fin 0)) (Fin 0) (Fin 0)
    0 (Fin 40) (Fin 1) id None.

Definition one_photon_queue : PhotonQueue.t :=
  PhotonQueue.allocate (PhotonQueue.init 3) 1
    (Vec2.mk (Fin 0) (Fin 0)) (Vec2.mk (Fin 1) (Fin 0)).



(** The photon of [one_photon_queue]: fired by ship 1 from the origin. *)
Definition photon_here : Photon.t :=
  Photon.allocate 1 (Vec2.mk (Fin 0) (Fin 0)) (Vec2.mk (Fin 1) (Fin 0)).

(** A resting ship whose scene-graph node shows the flat frame. *)
Definition ship_with_node : Ship.t :=
  Ship.mk (Vec2.mk (Fin 0) (Fin 0)) (Vec2.mk (Fin 0) (Fin 0)) (Fin 0) (Fin 0)
    0 (Fin 40) (Fin 1) 0 (Some 9%Z).

(** A ship of player 0 far from the origin. *)
Definition ship_far_away : Ship.t :=
  Ship.mk (Vec2.mk (Fin 500) (Fin 0)) (Vec2.mk (Fin 0) (Fin 0)) (Fin 0) (Fin 0)
    0 (Fin 40) (Fin 1) 0 None.

(** A keyboard with the up arrow, the space bar and W held down. *)
Definition keys_held : InputController.Keyboard :=
  fun k =>
    match k with
    | InputController.ARROW_UP | InputController.SPACE | InputController.W =>
        true
    | _ => false
    end.

(** A binary32 ship of radius 40 and mass 1 with integer position and
    velocity. *)
Definition ship32 (px py vx vy : Z) : B32.Ship.t :=
  B32.Ship.mk (B32.Vec2.mk (B32.of_Z px) (B32.of_Z py))
    (B32.Vec2.mk (B32.of_Z vx) (B32.of_Z vy)) (B32.of_Z 40) (B32.of_Z 1).

(** * Properties *)

(** ** Comparisons and arithmetic on finite values *)

Lemma F_lt_Fin (u v : R) : F.lt (Fin u) (Fin v) = true <-> (u < v)%R.
Proof. unfold F.lt. destruct (Rlt_dec u v); split; intros; try done. Qed.

Lemma F_lt_Fin_false (u v : R) : F.lt (Fin u) (Fin v) = false <-> (v <= u)%R.
Proof.
  unfold F.lt. destruct (Rlt_dec u v); split; intros; try done; lra.
Qed.

Lemma F_le_Fin (u v : R) : F.le (Fin u) (Fin v) = true <-> (u <= v)%R.
Proof. unfold F.le. destruct (Rle_dec u v); split; intros; try done. Qed.

Lemma F_le_Fin_false (u v : R) : F.le (Fin u) (Fin v) = false <-> (v < u)%R.
Proof.
  unfold F.le. destruct (Rle_dec u v); split; intros; try done; lra.
Qed.

Lemma F_eq_Fin (u v : R) : F.eq (Fin u) (Fin v) = true <-> u = v.
Proof. unfold F.eq. destruct (Req_dec_T u v); split; intros; try done. Qed.

Lemma F_eq_Fin_false (u v : R) : F.eq (Fin u) (Fin v) = false <-> u <> v.
Proof. unfold F.eq. destruct (Req_dec_T u v); split; intros; try done. Qed.

Lemma F_ne_Fin (u v : R) : F.ne (Fin u) (Fin v) = true <-> u <> v.
Proof.
  unfold F.ne. rewrite negb_true_iff. apply F_eq_Fin_false.
Qed.

Lemma F_div_Fin (u v : R) : v <> 0%R -> F.div (Fin u) (Fin v) = Fin (u / v).
Proof. intros Hv. unfold F.div. destruct (Req_dec_T v 0); done. Qed.

Lemma F_sqrt_Fin (u : R) : (0 <= u)%R -> F.sqrt (Fin u) = Fin (sqrt u).
Proof. intros Hu. unfold F.sqrt. destruct (Rlt_dec u 0); [lra | done]. Qed.

Lemma F_lt_true_finite (a b : float) :
  F.lt a b = true -> exists u v, a = Fin u /\ b = Fin v /\ (u < v)%R.
Proof.
  destruct a as [u|], b as [v|]; try done.
  intros H. exists u, v. by rewrite <- F_lt_Fin.
Qed.

(** Case analysis on every comparison of reals left in the goal. *)
Ltac rcases :=
  repeat match goal with
         | |- context [Rlt_dec ?a ?b] => destruct (Rlt_dec a b)
         | |- context [Rle_dec ?a ?b] => destruct (Rle_dec a b)
         | |- context [Req_dec_T ?a ?b] => destruct (Req_dec_T a b)
         end.

(** Simplification that keeps divisions, roots and comparisons folded. *)
Ltac fcbn := cbn -[F.div F.sqrt F.lt F.gt F.le F.ge F.eq F.ne] in *.

Ltac funfold :=
  unfold F.gt, F.ge, F.ne, F.lt, F.le, F.eq, F.add, F.sub, F.mul, F.neg,
    F.div, F.sqrt, F.cosf, F.sinf, F.lift1, F.lift2 in *.

(** ** Ship::processTurn and Ship::move, field by field *)

Lemma processTurn_fields (s : Ship.t) (turn : float) :
  Ship.pos (Ship.processTurn s turn) = Ship.pos s /\
  Ship.vel (Ship.processTurn s turn) = Ship.vel s /\
  Ship.ang (Ship.processTurn s turn) = Ship.ang s /\
  Ship.refire (Ship.processTurn s turn) = Ship.refire s.
Proof.
  unfold Ship.processTurn.
  repeat match goal with
         | |- context [if ?c then _ else _] => destruct c
         end; done.
Qed.

Lemma move_vel (RR : Z) (s : Ship.t) (forward turn : float) :
  Ship.vel (Ship.move RR s forward turn) =
  if F.ne forward (Fin 0) then
    Vec2.add (Ship.vel s)
      (Vec2.scale (Vec2.scale (unit_vector (Ship.ang s)) forward)
         Ship.THRUST_FACTOR)
  else Vec2.scale (Ship.vel s) Ship.FORWARD_DAMPING.
Proof.
  destruct (processTurn_fields s turn) as (_ & Hv & Ha & _).
  unfold Ship.move, unit_vector. rewrite Hv, Ha.
  repeat match goal with
         | |- context [if ?c then _ else _] => destruct c
         end; done.
Qed.

(** C3: one [Ship::move] with forward intent 1 or -1 adds
    unit_vector(facing angle) * forward * THRUST_FACTOR to the velocity,
    where the facing angle is the one the ship has when the call starts
    and unit_vector has length 1; with forward intent 0 the velocity is
    multiplied by FORWARD_DAMPING. *)
Theorem move_thrust_or_damping (RR : Z) (s : Ship.t) (forward turn : float) :
  (forward = Fin 1 \/ forward = Fin (-1) ->
   Ship.vel (Ship.move RR s forward turn) =
   Vec2.add (Ship.vel s)
     (Vec2.scale (Vec2.scale (unit_vector (Ship.ang s)) forward)
        Ship.THRUST_FACTOR)) /\
  (forward = Fin 0 ->
   Ship.vel (Ship.move RR s forward turn) =
   Vec2.scale (Ship.vel s) Ship.FORWARD_DAMPING) /\
  (forall a : R, Ship.ang s = Fin a ->
   Vec2.length (unit_vector (Ship.ang s)) = Fin 1).
Proof.
  repeat split.
  - intros Hf. rewrite move_vel.
    assert (F.ne forward (Fin 0) = true) as ->; [|done].
    destruct Hf as [-> | ->]; apply F_ne_Fin; lra.
  - intros ->. rewrite move_vel.
    assert (F.ne (Fin 0) (Fin 0) = false) as ->; [|done].
    apply negb_false_iff, F_eq_Fin. done.
  - intros a ->. unfold unit_vector, Vec2.length, Ship.M_PI, Ship.M_PI_2.
    change (F.mul (Fin PI) (Fin a)) with (Fin (PI * a)).
    rewrite F_div_Fin by lra. cbn -[F.sqrt].
    rewrite F_sqrt_Fin.
    + f_equal. set (r := (PI * a / 180 + PI / 2)%R).
      replace (cos r * cos r + sin r * sin r)%R with 1%R.
      * apply sqrt_1.
      * generalize (sin2_cos2 r). unfold Rsqr. lra.
    + nra.
Qed.

Lemma move_thrust_or_damping_witness :
  Ship.vel (Ship.move 3 (Ship.default 0) (Fin 1) (Fin 0)) =
  Vec2.add (Ship.vel (Ship.default 0))
    (Vec2.scale (Vec2.scale (unit_vector (Ship.ang (Ship.default 0))) (Fin 1))
       Ship.THRUST_FACTOR) /\
  Ship.vel (Ship.move 3 (Ship.default 0) (Fin 0) (Fin 0)) =
  Vec2.scale (Ship.vel (Ship.default 0)) Ship.FORWARD_DAMPING /\
  Vec2.length (unit_vector (Ship.ang (Ship.default 0))) = Fin 1.
Proof.
  split; [|split].
  - apply (move_thrust_or_damping 3 (Ship.default 0) (Fin 1) (Fin 0)).
    left. reflexivity.
  - apply (move_thrust_or_damping 3 (Ship.default 0) (Fin 0) (Fin 0)).
    reflexivity.
  - apply (move_thrust_or_damping 3 (Ship.default 0) (Fin 0) (Fin 0)) with (a := 0%R).
    reflexivity.
Defined.

(** ** The facing angle *)

Lemma processTurn_dang (s : Ship.t) (d t : R) :
  Ship.dang s = Fin d -> (-5 <= d <= 5)%R ->
  exists d', Ship.dang (Ship.processTurn s (Fin t)) = Fin d' /\
             (-5 <= d' <= 5)%R.
Proof.
  intros Hd Hr. unfold Ship.processTurn, Ship.BANK_FACTOR, Ship.MAXIMUM_BANK,
    Ship.ANGULAR_DAMPING.
  destruct (F.ne (Fin t) (Fin 0)); fcbn; rewrite Hd.
  - rewrite F_div_Fin by lra. fcbn.
    destruct (F.lt _ _) eqn:Hlo; fcbn.
    + exists (-5)%R. split; [done | lra].
    + destruct (F.gt _ _) eqn:Hhi; fcbn.
      * exists 5%R. split; [done | lra].
      * eexists. split; [done|].
        apply F_lt_Fin_false in Hlo. apply F_lt_Fin_false in Hhi. lra.
  - destruct (F.ne (Fin d) (Fin 0)); fcbn.
    + eexists. split; [done | lra].
    + exists d. rewrite Hd. done.
Qed.

Lemma move_ang (RR : Z) (s : Ship.t) (forward turn : float) :
  Ship.ang (Ship.move RR s forward turn) =
  let a := F.add (Ship.ang s) (Ship.dang (Ship.processTurn s turn)) in
  let a := if F.gt a (Fin 360) then F.sub a (Fin 360) else a in
  if F.lt a (Fin 0) then F.add a (Fin 360) else a.
Proof.
  destruct (processTurn_fields s turn) as (_ & _ & Ha & _).
  unfold Ship.move. rewrite <- Ha.
  generalize (Ship.processTurn s turn) as p. intros p.
  destruct (F.ne forward (Fin 0)); fcbn;
    (destruct (F.gt (F.add (Ship.ang p) (Ship.dang p)) (Fin 360)); fcbn;
     destruct (F.lt _ (Fin 0)); fcbn; destruct (Z.leb _ _); done).
Qed.

(** C4, as amended: if the facing angle is in [0, 360) and the angular
    rate within [-MAXIMUM_BANK, MAXIMUM_BANK] before [Ship::move], then for
    any finite intents the facing angle afterwards is in the closed
    interval [0, 360]: the wrap subtracts 360 only from an angle strictly
    above 360. *)
Theorem move_angle_within_0_360 (RR : Z) (s : Ship.t) (forward : float)
  (a d t : R) :
  Ship.ang s = Fin a -> Ship.dang s = Fin d ->
  (0 <= a < 360)%R -> (-5 <= d <= 5)%R ->
  exists a', Ship.ang (Ship.move RR s forward (Fin t)) = Fin a' /\
             (0 <= a' <= 360)%R.
Proof.
  intros Ha Hd Hra Hrd.
  destruct (processTurn_dang s d t Hd Hrd) as (d' & Hd' & Hrd').
  rewrite move_ang, Ha, Hd'. fcbn.
  destruct (F.gt _ (Fin 360)) eqn:Hhi.
  - apply F_lt_Fin in Hhi. fcbn.
    destruct (F.lt _ (Fin 0)) eqn:Hlo.
    + apply F_lt_Fin in Hlo. lra.
    + eexists. split; [done | lra].
  - apply F_lt_Fin_false in Hhi.
    destruct (F.lt _ (Fin 0)) eqn:Hlo.
    + apply F_lt_Fin in Hlo. eexists. split; [done | lra].
    + apply F_lt_Fin_false in Hlo. eexists. split; [done | lra].
Qed.

Lemma move_angle_within_0_360_witness :
  exists a', Ship.ang (Ship.move 3 (Ship.default 0) (Fin 1) (Fin 1)) = Fin a' /\
             (0 <= a' <= 360)%R.
Proof.
  apply (move_angle_within_0_360 3 (Ship.default 0) (Fin 1) 0 0 1);
    [reflexivity | reflexivity | lra | lra].
Defined.

(** C4 as stated fails: from angle 355 and angular rate 5, both within
    the assumed ranges, one [Ship::move] with turn intent -1 ends at
    exactly 360, which the test [_ang > 360] leaves in place. *)
Lemma move_angle_reaches_360 :
  Ship.ang ship_at_355 = Fin 355 /\ Ship.dang ship_at_355 = Fin 5 /\
  (0 <= 355 < 360)%R /\ (-5 <= 5 <= 5)%R /\
  Ship.ang (Ship.move 3 ship_at_355 (Fin 0) (Fin (-1))) = Fin 360 /\
  ~ (exists a', Ship.ang (Ship.move 3 ship_at_355 (Fin 0) (Fin (-1))) = Fin a' /\
                (0 <= a' < 360)%R).
Proof.
  assert (Ship.ang (Ship.move 3 ship_at_355 (Fin 0) (Fin (-1))) = Fin 360) as H.
  { rewrite move_ang. unfold Ship.processTurn, ship_at_355, Ship.BANK_FACTOR,
      Ship.MAXIMUM_BANK. simpl. funfold. simpl.
    rcases; simpl; rcases; simpl; rcases; try lra; f_equal; lra. }
  repeat split; try done; try lra.
  intros (a' & Ha & Hr). rewrite H in Ha. injection Ha as <-. lra.
Qed.

(** ** The refire counter *)

Lemma move_refire (RR : Z) (s : Ship.t) (forward turn : float) :
  Ship.refire (Ship.move RR s forward turn) =
  if (Ship.refire s <=? RR)%Z then Ship.wrap_int (Ship.refire s + 1)
  else Ship.refire s.
Proof.
  destruct (processTurn_fields s turn) as (_ & _ & _ & Hr).
  unfold Ship.move. rewrite <- Hr.
  generalize (Ship.processTurn s turn) as p. intros p.
  destruct (F.ne forward (Fin 0)); fcbn;
    (destruct (F.gt (F.add (Ship.ang p) (Ship.dang p)) (Fin 360)); fcbn;
     destruct (F.lt _ (Fin 0)); fcbn; destruct (Z.leb _ _); done).
Qed.

Lemma wrap_int_small (z : Z) :
  (- 2 ^ 31 <= z < 2 ^ 31)%Z -> Ship.wrap_int z = z.
Proof.
  intros Hz. unfold Ship.wrap_int.
  rewrite Z.mod_small; lia.
Qed.

(** C5: for a reload constant and a counter that fit a C++ int,
    [Ship::move] increments the refire counter by exactly 1 while it is
    below the reload threshold and leaves it unchanged, saturated, at the
    threshold; the counter never exceeds the threshold once at or below
    it, and never goes below zero.  The threshold, the value at which the
    counter comes to rest, is RELOAD_RATE + 1: the code counts while
    [_refire <= RELOAD_RATE], that is while the counter is below
    RELOAD_RATE + 1. *)
Theorem move_refire_saturates (RR : Z) (s : Ship.t) (forward turn : float) :
  (0 <= RR < 2 ^ 31 - 1)%Z ->
  (- 2 ^ 31 <= Ship.refire s < 2 ^ 31)%Z ->
  let r := Ship.refire s in
  let r' := Ship.refire (Ship.move RR s forward turn) in
  ((r <= RR)%Z -> r' = (r + 1)%Z) /\
  ((RR < r)%Z -> r' = r) /\
  ((r <= RR + 1)%Z -> (r' <= RR + 1)%Z) /\
  ((0 <= r)%Z -> (0 <= r')%Z).
Proof.
  intros HRR Hr r r'. subst r r'. rewrite move_refire.
  destruct (Z.leb_spec (Ship.refire s) RR) as [Hle | Hgt].
  - rewrite wrap_int_small by lia. lia.
  - lia.
Qed.

Lemma move_refire_saturates_witness :
  Ship.refire (Ship.move 3 (Ship.default 0) (Fin 0) (Fin 0)) = 1%Z.
Proof.
  assert ((0 <= 3 < 2 ^ 31 - 1)%Z) as HRR by lia.
  assert ((- 2 ^ 31 <= Ship.refire (Ship.default 0) < 2 ^ 31)%Z) as Hr
    by (cbn; lia).
  destruct (move_refire_saturates 3 (Ship.default 0) (Fin 0) (Fin 0) HRR Hr)
    as (Hinc & _).
  apply Hinc. cbn. lia.
Defined.

(** ** Boundary reflection *)

(** [checkInBounds] axis by axis, in the order of its tests: the
    low-edge test comes first and the far-edge test is its [else if]. *)
Lemma checkInBounds_cases (s : Ship.t) (b : collisions.Rect) :
  let s' := collisions.checkInBounds s b in
  let far_x := F.add (collisions.size_width b) (collisions.origin_x b) in
  let far_y := F.add (collisions.size_height b) (collisions.origin_y b) in
  let px := Vec2.x (Ship.pos s) in
  let py := Vec2.y (Ship.pos s) in
  let vx := Vec2.x (Ship.vel s) in
  let vy := Vec2.y (Ship.vel s) in
  let px' := Vec2.x (Ship.pos s') in
  let py' := Vec2.y (Ship.pos s') in
  let vx' := Vec2.x (Ship.vel s') in
  let vy' := Vec2.y (Ship.vel s') in
  (F.le px (collisions.origin_x b) = true ->
   vx' = F.neg vx /\ px' = collisions.origin_x b) /\
  (F.le px (collisions.origin_x b) = false -> F.ge px far_x = true ->
   vx' = F.neg vx /\ px' = F.sub far_x (Fin 1)) /\
  (F.le px (collisions.origin_x b) = false -> F.ge px far_x = false ->
   vx' = vx /\ px' = px) /\
  (F.le py (collisions.origin_y b) = true ->
   vy' = F.neg vy /\ py' = collisions.origin_y b) /\
  (F.le py (collisions.origin_y b) = false -> F.ge py far_y = true ->
   vy' = F.neg vy /\ py' = F.sub far_y (Fin 1)) /\
  (F.le py (collisions.origin_y b) = false -> F.ge py far_y = false ->
   vy' = vy /\ py' = py) /\
  (forall u v : R,
     px = Fin u -> collisions.origin_x b = Fin u -> vx = Fin v -> (v < 0)%R ->
     vx' = Fin (- v) /\ (0 < - v)%R /\ px' = Fin u) /\
  Ship.ang s' = Ship.ang s /\ Ship.dang s' = Ship.dang s /\
  Ship.refire s' = Ship.refire s /\ Ship.radius s' = Ship.radius s /\
  Ship.mass s' = Ship.mass s /\ Ship.sid s' = Ship.sid s /\
  Ship.shipNode s' = Ship.shipNode s.
Proof.
  intros s' far_x far_y px py vx vy px' py' vx' vy'.
  subst s' far_x far_y px py vx vy px' py' vx' vy'.
  unfold collisions.checkInBounds, Ship.getVelocity, Ship.getPosition.
  destruct s as [[px py] [vx vy] a d r rad m id node]. fcbn.
  destruct (F.le px (collisions.origin_x b)) eqn:Hx1;
    [| destruct (F.ge px _) eqn:Hx2]; fcbn;
    (destruct (F.le py (collisions.origin_y b)) eqn:Hy1;
     [| destruct (F.ge py _) eqn:Hy2]); fcbn;
    repeat match goal with |- _ /\ _ => split end; try done;
    intros u v Hp Ho Hv Hneg; subst px vx; rewrite Ho in *;
    first [ split; [done | split; [lra | done]]
          | exfalso; apply F_le_Fin_false in Hx1; lra ].
Qed.

(** A position at or beyond the far edge of a rectangle of positive extent
    is not at or below its low edge. *)
Lemma beyond_far_not_low (p lo far : float) :
  F.lt lo far = true -> F.ge p far = true -> F.le p lo = false.
Proof.
  intros Hlt Hge.
  apply F_lt_true_finite in Hlt as (u & v & -> & -> & Huv).
  destruct p as [w|]; [|done].
  apply F_le_Fin in Hge. apply F_le_Fin_false. lra.
Qed.

(** C8: [checkInBounds] treats the two axes independently.  On each axis,
    a position <= the low edge negates the velocity component and clamps
    the position to the low edge, and a position >= the far edge negates
    the velocity component and clamps the position to the far edge minus
    1; otherwise the axis is left alone.  Nothing else in the ship
    changes, so a corner contact reflects both axes in one call.  In
    particular a ship exactly at bounds.origin.x with negative x-velocity
    gets a positive x-velocity of the same size and stays at the boundary.
    The low-edge test comes first and the far-edge test is its [else if]:
    the far-edge clause is stated both under the failed low-edge test and,
    as the claim words it, for any position >= the far edge of a rectangle
    whose far edge lies beyond its low edge. *)
Theorem checkInBounds_per_axis (s : Ship.t) (b : collisions.Rect) :
  let s' := collisions.checkInBounds s b in
  let far_x := F.add (collisions.size_width b) (collisions.origin_x b) in
  let far_y := F.add (collisions.size_height b) (collisions.origin_y b) in
  let px := Vec2.x (Ship.pos s) in
  let py := Vec2.y (Ship.pos s) in
  let vx := Vec2.x (Ship.vel s) in
  let vy := Vec2.y (Ship.vel s) in
  let px' := Vec2.x (Ship.pos s') in
  let py' := Vec2.y (Ship.pos s') in
  let vx' := Vec2.x (Ship.vel s') in
  let vy' := Vec2.y (Ship.vel s') in
  (F.le px (collisions.origin_x b) = true ->
   vx' = F.neg vx /\ px' = collisions.origin_x b) /\
  (F.le px (collisions.origin_x b) = false -> F.ge px far_x = true ->
   vx' = F.neg vx /\ px' = F.sub far_x (Fin 1)) /\
  (F.le px (collisions.origin_x b) = false -> F.ge px far_x = false ->
   vx' = vx /\ px' = px) /\
  (F.le py (collisions.origin_y b) = true ->
   vy' = F.neg vy /\ py' = collisions.origin_y b) /\
  (F.le py (collisions.origin_y b) = false -> F.ge py far_y = true ->
   vy' = F.neg vy /\ py' = F.sub far_y (Fin 1)) /\
  (F.le py (collisions.origin_y b) = false -> F.ge py far_y = false ->
   vy' = vy /\ py' = py) /\
  (forall u v : R,
     px = Fin u -> collisions.origin_x b = Fin u -> vx = Fin v -> (v < 0)%R ->
     vx' = Fin (- v) /\ (0 < - v)%R /\ px' = Fin u) /\
  Ship.ang s' = Ship.ang s /\ Ship.dang s' = Ship.dang s /\
  Ship.refire s' = Ship.refire s /\ Ship.radius s' = Ship.radius s /\
  Ship.mass s' = Ship.mass s /\ Ship.sid s' = Ship.sid s /\
  Ship.shipNode s' = Ship.shipNode s /\
  (F.lt (collisions.origin_x b) far_x = true -> F.ge px far_x = true ->
   vx' = F.neg vx /\ px' = F.sub far_x (Fin 1)) /\
  (F.lt (collisions.origin_y b) far_y = true -> F.ge py far_y = true ->
   vy' = F.neg vy /\ py' = F.sub far_y (Fin 1)).
Proof.
  intros s' far_x far_y px py vx vy px' py' vx' vy'.
  pose proof (checkInBounds_cases s b) as H. cbv zeta in H.
  destruct H as (Hx1 & Hx2 & Hx3 & Hy1 & Hy2 & Hy3 & Hpart & Ha & Hd & Hr &
                 Hrad & Hm & Hsid & Hnode).
  subst s' far_x far_y px py vx vy px' py' vx' vy'.
  split_and!; try assumption.
  - intros Hpos Hge. apply Hx2; [|done]. by eapply beyond_far_not_low.
  - intros Hpos Hge. apply Hy2; [|done]. by eapply beyond_far_not_low.
Qed.

Lemma checkInBounds_per_axis_witness :
  Vec2.x (Ship.vel (collisions.checkInBounds ship_on_left_edge playfield)) =
    F.neg (Fin (-3)) /\
  Vec2.x (Ship.pos (collisions.checkInBounds ship_on_left_edge playfield)) =
    Fin 0.
Proof.
  apply (checkInBounds_per_axis ship_on_left_edge playfield).
  apply F_le_Fin. lra.
Defined.

(** ** Ship against ship *)

Lemma sum_squares_nonneg (a b : R) : (0 <= a * a + b * b)%R.
Proof. nra. Qed.

Lemma dist_zero_iff (a b : R) :
  sqrt (a * a + b * b) = 0%R <-> a = 0%R /\ b = 0%R.
Proof.
  split.
  - intros H. apply sqrt_eq_0 in H; [nra | apply sum_squares_nonneg].
  - intros [-> ->]. replace (0 * 0 + 0 * 0)%R with 0%R by lra. apply sqrt_0.
Qed.

Lemma dist_square (a b : R) :
  (sqrt (a * a + b * b) * sqrt (a * a + b * b) = a * a + b * b)%R.
Proof. apply sqrt_sqrt, sum_squares_nonneg. Qed.

Lemma dist_nonneg (a b : R) : (0 <= sqrt (a * a + b * b))%R.
Proof. apply sqrt_pos. Qed.

Lemma length_Fin (a b : R) :
  Vec2.length (Vec2.mk (Fin a) (Fin b)) = Fin (sqrt (a * a + b * b)).
Proof.
  unfold Vec2.length. fcbn. apply F_sqrt_Fin, sum_squares_nonneg.
Qed.

Lemma add_Fin (a b c d : R) :
  Vec2.add (Vec2.mk (Fin a) (Fin b)) (Vec2.mk (Fin c) (Fin d)) =
  Vec2.mk (Fin (a + c)) (Fin (b + d)).
Proof. reflexivity. Qed.

Lemma sub_Fin (a b c d : R) :
  Vec2.sub (Vec2.mk (Fin a) (Fin b)) (Vec2.mk (Fin c) (Fin d)) =
  Vec2.mk (Fin (a - c)) (Fin (b - d)).
Proof. reflexivity. Qed.

Lemma scale_Fin (a b k : R) :
  Vec2.scale (Vec2.mk (Fin a) (Fin b)) (Fin k) =
  Vec2.mk (Fin (a * k)) (Fin (b * k)).
Proof. reflexivity. Qed.

Lemma dot_Fin (a b c d : R) :
  Vec2.dot (Vec2.mk (Fin a) (Fin b)) (Vec2.mk (Fin c) (Fin d)) =
  Fin (a * c + b * d).
Proof. reflexivity. Qed.

Lemma normalize_Fin (a b : R) :
  Vec2.normalize (Vec2.mk (Fin a) (Fin b)) =
  if Req_dec_T (sqrt (a * a + b * b)) 0 then Vec2.mk (Fin a) (Fin b)
  else Vec2.mk (Fin (a * (1 / sqrt (a * a + b * b))))
               (Fin (b * (1 / sqrt (a * a + b * b)))).
Proof.
  unfold Vec2.normalize. rewrite length_Fin.
  unfold F.eq, Vec2.scale, F.div.
  destruct (Req_dec_T (sqrt (a * a + b * b)) 0); done.
Qed.

Lemma checkForCollision_unfold (s1 s2 : Ship.t) :
  collisions.checkForCollision s1 s2 =
  if F.lt (distance s1 s2) (impactDistance s1 s2) then
    (Ship.setVelocity
       (Ship.setPosition s1
          (Vec2.add (Ship.pos s1) (Vec2.scale (normal s1 s2) (halfOverlap s1 s2))))
       (Vec2.add (Ship.vel s1)
          (Vec2.scale (normal s1 s2) (F.div (impulse s1 s2) (Ship.mass s1)))),
     Ship.setVelocity
       (Ship.setPosition s2
          (Vec2.sub (Ship.pos s2) (Vec2.scale (normal s1 s2) (halfOverlap s1 s2))))
       (Vec2.sub (Ship.vel s2)
          (Vec2.scale (normal s1 s2) (F.div (impulse s1 s2) (Ship.mass s2)))))
  else (s1, s2).
Proof. reflexivity. Qed.

(** C1, as amended: when the center distance of two ships is less than
    the sum of their radii, [checkForCollision] moves each ship by half
    the overlap along the normal normalize(pos1 - pos2), ship1 forward and
    ship2 backward, and changes the velocities by +impulse/mass1 and
    -impulse/mass2 along that normal, with impulse as in the
    specification.  When the center distance is not less than the sum of
    the radii neither ship is modified.  The statement is about the
    operations the code performs and holds whatever the arithmetic; it
    promises nothing about the center distance after the call. *)
Theorem checkForCollision_ships_response (s1 s2 : Ship.t) :
  let s1' := fst (collisions.checkForCollision s1 s2) in
  let s2' := snd (collisions.checkForCollision s1 s2) in
  (F.lt (distance s1 s2) (impactDistance s1 s2) = true ->
   Ship.pos s1' =
     Vec2.add (Ship.pos s1) (Vec2.scale (normal s1 s2) (halfOverlap s1 s2)) /\
   Ship.pos s2' =
     Vec2.sub (Ship.pos s2) (Vec2.scale (normal s1 s2) (halfOverlap s1 s2)) /\
   Ship.vel s1' =
     Vec2.add (Ship.vel s1)
       (Vec2.scale (normal s1 s2) (F.div (impulse s1 s2) (Ship.mass s1))) /\
   Ship.vel s2' =
     Vec2.sub (Ship.vel s2)
       (Vec2.scale (normal s1 s2) (F.div (impulse s1 s2) (Ship.mass s2)))) /\
  (F.lt (distance s1 s2) (impactDistance s1 s2) = false ->
   collisions.checkForCollision s1 s2 = (s1, s2)).
Proof.
  intros s1' s2'. subst s1' s2'. rewrite checkForCollision_unfold.
  split; intros ->; done.
Qed.

Lemma head_on_distance :
  sqrt ((0 - 70) * (0 - 70) + (0 - 0) * (0 - 0)) = 70%R.
Proof. apply sqrt_lem_1; lra. Qed.

Lemma head_on_overlap :
  F.lt (distance ship_left ship_right) (impactDistance ship_left ship_right)
  = true.
Proof.
  unfold distance, impactDistance, ship_left, ship_right.
  cbn [Ship.pos Ship.radius]. rewrite sub_Fin, length_Fin, head_on_distance.
  apply F_lt_Fin. lra.
Qed.

Lemma checkForCollision_ships_response_witness :
  Ship.pos (fst (collisions.checkForCollision ship_left ship_right)) =
    Vec2.add (Ship.pos ship_left)
      (Vec2.scale (normal ship_left ship_right)
         (halfOverlap ship_left ship_right)) /\
  Ship.pos (snd (collisions.checkForCollision ship_left ship_right)) =
    Vec2.sub (Ship.pos ship_right)
      (Vec2.scale (normal ship_left ship_right)
         (halfOverlap ship_left ship_right)) /\
  Ship.vel (fst (collisions.checkForCollision ship_left ship_right)) =
    Vec2.add (Ship.vel ship_left)
      (Vec2.scale (normal ship_left ship_right)
         (F.div (impulse ship_left ship_right) (Ship.mass ship_left))) /\
  Ship.vel (snd (collisions.checkForCollision ship_left ship_right)) =
    Vec2.sub (Ship.vel ship_right)
      (Vec2.scale (normal ship_left ship_right)
         (F.div (impulse ship_left ship_right) (Ship.mass ship_right))).
Proof.
  apply (checkForCollision_ships_response ship_left ship_right).
  exact head_on_overlap.
Defined.

(** The head-on scenario evaluated: the ships are pushed 5 units apart
    each, to centers 80 apart, and the impulse 5.5 turns the velocities
    (5,0) and (-5,0) into (-0.5,0) and (0.5,0). *)
Example head_on_scenario :
  normal ship_left ship_right = Vec2.mk (Fin (-1)) (Fin 0) /\
  halfOverlap ship_left ship_right = Fin 5 /\
  impulse ship_left ship_right = Fin (11 / 2) /\
  collisions.checkForCollision ship_left ship_right =
  (Ship.setVelocity
     (Ship.setPosition ship_left (Vec2.mk (Fin (-5)) (Fin 0)))
     (Vec2.mk (Fin (-1 / 2)) (Fin 0)),
   Ship.setVelocity
     (Ship.setPosition ship_right (Vec2.mk (Fin 75) (Fin 0)))
     (Vec2.mk (Fin (1 / 2)) (Fin 0))).
Proof.
  assert (normal ship_left ship_right = Vec2.mk (Fin (-1)) (Fin 0)) as Hn.
  { unfold normal, ship_left, ship_right. cbn [Ship.pos].
    rewrite sub_Fin, normalize_Fin, head_on_distance.
    destruct (Req_dec_T 70 0) as [H|_]; [lra|]. f_equal; f_equal; lra. }
  assert (halfOverlap ship_left ship_right = Fin 5) as Hh.
  { unfold halfOverlap, distance, impactDistance, ship_left, ship_right.
    cbn [Ship.pos Ship.radius]. rewrite sub_Fin, length_Fin, head_on_distance.
    cbn [F.add F.sub F.lift2]. rewrite F_div_Fin by lra. f_equal. lra. }
  assert (impulse ship_left ship_right = Fin (11 / 2)) as Hj.
  { unfold impulse. rewrite Hn.
    unfold ship_left, ship_right, collisions.COLLISION_COEFF.
    cbn [Ship.vel Ship.mass]. rewrite sub_Fin, !dot_Fin, !F_div_Fin by lra.
    cbn [F.add F.mul F.neg F.lift1 F.lift2]. rewrite F_div_Fin by lra.
    f_equal. lra. }
  split_and!; try done.
  rewrite checkForCollision_unfold, head_on_overlap, Hn, Hh, Hj.
  unfold ship_left, ship_right. cbn [Ship.pos Ship.vel Ship.mass].
  rewrite !F_div_Fin by lra. rewrite !scale_Fin, !add_Fin, !sub_Fin.
  replace (0 + -1 * 5)%R with (-5)%R by lra.
  replace (70 - -1 * 5)%R with 75%R by lra.
  replace (0 + 0 * 5)%R with 0%R by lra.
  replace (0 - 0 * 5)%R with 0%R by lra.
  replace (5 + -1 * (11 / 2 / 1))%R with (-1 / 2)%R by lra.
  replace (-5 - -1 * (11 / 2 / 1))%R with (1 / 2)%R by lra.
  replace (0 + 0 * (11 / 2 / 1))%R with 0%R by lra.
  replace (0 - 0 * (11 / 2 / 1))%R with 0%R by lra.
  reflexivity.
Qed.

(** *** Coinciding centers *)

Lemma coincident_sub (p q : Vec2.t) (x y : R) :
  p = Vec2.mk (Fin x) (Fin y) -> q = Vec2.mk (Fin x) (Fin y) ->
  Vec2.sub p q = Vec2.mk (Fin 0) (Fin 0).
Proof. intros -> ->. rewrite sub_Fin. f_equal; f_equal; lra. Qed.

Lemma length_zero : Vec2.length (Vec2.mk (Fin 0) (Fin 0)) = Fin 0.
Proof.
  rewrite length_Fin. f_equal. apply dist_zero_iff. done.
Qed.

Lemma normalize_zero :
  Vec2.normalize (Vec2.mk (Fin 0) (Fin 0)) = Vec2.mk (Fin 0) (Fin 0).
Proof.
  unfold Vec2.normalize. rewrite length_zero.
  assert (F.eq (Fin 0) (Fin 0) = true) as -> by (by apply F_eq_Fin). done.
Qed.

(** Pushing a finite point along the zero vector leaves it in place. *)
Lemma push_along_zero (p : Vec2.t) (x y : R) (k : float) (neg : bool) :
  p = Vec2.mk (Fin x) (Fin y) -> F.is_nan k = false ->
  (if neg then Vec2.sub p (Vec2.scale (Vec2.mk (Fin 0) (Fin 0)) k)
   else Vec2.add p (Vec2.scale (Vec2.mk (Fin 0) (Fin 0)) k)) = p.
Proof.
  intros -> Hk. destruct k as [k|]; [|done].
  rewrite scale_Fin. destruct neg; [rewrite sub_Fin | rewrite add_Fin];
    f_equal; f_equal; lra.
Qed.

(** A quotient whose divisor is zero times something is never a number. *)
Lemma div_by_zero_product (a b : float) :
  F.div a (F.mul (Fin 0) b) = NaN.
Proof.
  destruct a as [a|], b as [b|]; try done.
  unfold F.div. cbn [F.mul F.lift2].
  destruct (Req_dec_T (0 * b) 0) as [_|H]; [done | lra].
Qed.

Lemma add_scale_nan (v n : Vec2.t) (m : float) (neg : bool) :
  (if neg then Vec2.sub v (Vec2.scale n (F.div NaN m))
   else Vec2.add v (Vec2.scale n (F.div NaN m))) = Vec2.mk NaN NaN.
Proof.
  destruct v as [[a|] [b|]], n as [[c|] [d|]], neg; done.
Qed.

(** With coinciding centers the impulse of the ship-ship response is 0/0. *)
Lemma coincident_impulse_nan (s1 s2 : Ship.t) (x y : R) :
  Ship.pos s1 = Vec2.mk (Fin x) (Fin y) ->
  Ship.pos s2 = Vec2.mk (Fin x) (Fin y) ->
  impulse s1 s2 = NaN.
Proof.
  intros H1 H2. unfold impulse, normal.
  rewrite (coincident_sub _ _ x y H1 H2), normalize_zero.
  replace (Vec2.dot (Vec2.mk (Fin 0) (Fin 0)) (Vec2.mk (Fin 0) (Fin 0)))
    with (Fin 0).
  - apply div_by_zero_product.
  - rewrite dot_Fin. f_equal. lra.
Qed.

Lemma coincident_overlap :
  F.lt (distance (ship_here 5 0) (ship_here (-5) 1))
       (impactDistance (ship_here 5 0) (ship_here (-5) 1)) = true.
Proof.
  unfold distance, impactDistance, ship_here. cbn [Ship.pos Ship.radius].
  rewrite (coincident_sub _ _ 0 0 eq_refl eq_refl), length_zero.
  apply F_lt_Fin. lra.
Qed.

Lemma coincident_result :
  collisions.checkForCollision (ship_here 5 0) (ship_here (-5) 1) =
  (Ship.setVelocity (ship_here 5 0) (Vec2.mk NaN NaN),
   Ship.setVelocity (ship_here (-5) 1) (Vec2.mk NaN NaN)).
Proof.
  rewrite checkForCollision_unfold, coincident_overlap.
  rewrite (coincident_impulse_nan (ship_here 5 0) (ship_here (-5) 1) 0 0
             eq_refl eq_refl).
  rewrite (add_scale_nan _ _ _ false), (add_scale_nan _ _ _ true).
  unfold normal, halfOverlap, distance, impactDistance.
  rewrite (coincident_sub (Ship.pos (ship_here 5 0))
             (Ship.pos (ship_here (-5) 1)) 0 0 eq_refl eq_refl).
  rewrite normalize_zero, length_zero.
  rewrite (push_along_zero _ 0 0 _ false), (push_along_zero _ 0 0 _ true);
    try done;
    unfold ship_here; cbn [Ship.radius F.add F.sub F.lift2];
    rewrite F_div_Fin by lra; done.
Qed.

(** Two ships with the same center overlap (distance 0 < 80), and after
    [checkForCollision] they still have the same center, so they overlap
    as before. *)
Lemma checkForCollision_coincident_still_overlap :
  let s1' := fst (collisions.checkForCollision (ship_here 5 0) (ship_here (-5) 1)) in
  let s2' := snd (collisions.checkForCollision (ship_here 5 0) (ship_here (-5) 1)) in
  F.lt (distance (ship_here 5 0) (ship_here (-5) 1))
       (impactDistance (ship_here 5 0) (ship_here (-5) 1)) = true /\
  distance s1' s2' = Fin 0 /\
  F.ge (distance s1' s2') (impactDistance s1' s2') = false.
Proof.
  rewrite coincident_result. cbn [fst snd].
  split; [exact coincident_overlap|].
  assert (distance (Ship.setVelocity (ship_here 5 0) (Vec2.mk NaN NaN))
                   (Ship.setVelocity (ship_here (-5) 1) (Vec2.mk NaN NaN))
          = Fin 0) as ->.
  { unfold distance. cbn [Ship.pos Ship.setVelocity ship_here].
    rewrite (coincident_sub _ _ 0 0 eq_refl eq_refl). apply length_zero. }
  split; [done|].
  unfold impactDistance, F.ge. cbn [Ship.radius Ship.setVelocity ship_here F.add F.lift2].
  apply F_le_Fin_false. lra.
Qed.

(** *** Momentum *)

Lemma positive_mass_Fin (s : Ship.t) :
  positive_mass s -> exists m, Ship.mass s = Fin m /\ (0 < m)%R.
Proof.
  intros H. apply F_lt_true_finite in H as (z & m & [= <-] & Hm & Hlt).
  by exists m.
Qed.

(** The normal of two distinct finite points is a unit vector. *)
Lemma normal_unit (s1 s2 : Ship.t) :
  Vec2.finite (Ship.pos s1) -> Vec2.finite (Ship.pos s2) ->
  Ship.pos s1 <> Ship.pos s2 ->
  exists nx ny, normal s1 s2 = Vec2.mk (Fin nx) (Fin ny) /\
                (nx * nx + ny * ny = 1)%R.
Proof.
  intros (x1 & y1 & H1) (x2 & y2 & H2) Hne.
  unfold normal. rewrite H1, H2, sub_Fin, normalize_Fin.
  set (dx := (x1 - x2)%R). set (dy := (y1 - y2)%R).
  assert (sqrt (dx * dx + dy * dy) <> 0)%R as Hd.
  { intros H0. apply dist_zero_iff in H0 as [Hx Hy]. apply Hne.
    rewrite H1, H2. subst dx dy. f_equal; f_equal; lra. }
  destruct (Req_dec_T _ 0) as [H0|_]; [done|].
  eexists _, _. split; [done|].
  generalize (dist_square dx dy).
  generalize dependent (sqrt (dx * dx + dy * dy)). intros d Hd Hsq.
  replace (dx * (1 / d) * (dx * (1 / d)) + dy * (1 / d) * (dy * (1 / d)))%R
    with ((dx * dx + dy * dy) / (d * d))%R by (field; done).
  rewrite <- Hsq. field. done.
Qed.

Lemma impulse_finite (s1 s2 : Ship.t) :
  Vec2.finite (Ship.pos s1) -> Vec2.finite (Ship.pos s2) ->
  Vec2.finite (Ship.vel s1) -> Vec2.finite (Ship.vel s2) ->
  positive_mass s1 -> positive_mass s2 ->
  Ship.pos s1 <> Ship.pos s2 ->
  exists j, impulse s1 s2 = Fin j.
Proof.
  intros Hp1 Hp2 (u1 & w1 & Hv1) (u2 & w2 & Hv2) Hm1 Hm2 Hne.
  destruct (normal_unit s1 s2 Hp1 Hp2 Hne) as (nx & ny & Hn & Hunit).
  apply positive_mass_Fin in Hm1 as (m1 & Hm1 & Hpos1).
  apply positive_mass_Fin in Hm2 as (m2 & Hm2 & Hpos2).
  unfold impulse, collisions.COLLISION_COEFF.
  rewrite Hn, Hv1, Hv2, Hm1, Hm2, sub_Fin, !dot_Fin.
  rewrite !F_div_Fin by lra. cbn [F.add F.mul F.neg F.lift1 F.lift2].
  rewrite Hunit.
  assert (0 < 1 / m1)%R by (apply Rdiv_lt_0_compat; lra).
  assert (0 < 1 / m2)%R by (apply Rdiv_lt_0_compat; lra).
  rewrite F_div_Fin by lra. by eexists.
Qed.

(** C10, as amended: [checkForCollision] applies one impulse to the two
    ships in opposite directions, scaled by their inverse masses: on a
    collision the velocities change by +normal * (impulse / mass1) and
    -normal * (impulse / mass2), for the same normal and the same impulse,
    and the masses stay as they are.  When these operations are carried out
    exactly, as in the arithmetic of this embedding, the total linear
    momentum mass1 * vel1 + mass2 * vel2 of two ships with finite position
    and velocity, strictly positive masses and distinct positions is
    therefore the same before and after the call, whether or not the ships
    collide. *)
Theorem checkForCollision_conserves_momentum (s1 s2 : Ship.t) :
  let s1' := fst (collisions.checkForCollision s1 s2) in
  let s2' := snd (collisions.checkForCollision s1 s2) in
  (finite_ship s1 -> finite_ship s2 ->
   positive_mass s1 -> positive_mass s2 ->
   Ship.pos s1 <> Ship.pos s2 ->
   momentum s1' s2' = momentum s1 s2 /\ Vec2.finite (momentum s1 s2)) /\
  (F.lt (distance s1 s2) (impactDistance s1 s2) = true ->
   Ship.vel s1' =
     Vec2.add (Ship.vel s1)
       (Vec2.scale (normal s1 s2) (F.div (impulse s1 s2) (Ship.mass s1))) /\
   Ship.vel s2' =
     Vec2.sub (Ship.vel s2)
       (Vec2.scale (normal s1 s2) (F.div (impulse s1 s2) (Ship.mass s2))) /\
   Ship.mass s1' = Ship.mass s1 /\ Ship.mass s2' = Ship.mass s2).
Proof.
  intros s1' s2'. subst s1' s2'. split.
  - intros (Hp1 & Hv1) (Hp2 & Hv2) Hm1 Hm2 Hne.
    destruct (impulse_finite s1 s2 Hp1 Hp2 Hv1 Hv2 Hm1 Hm2 Hne) as (j & Hj).
    destruct (normal_unit s1 s2 Hp1 Hp2 Hne) as (nx & ny & Hn & _).
    apply positive_mass_Fin in Hm1 as (m1 & Hm1 & Hpos1).
    apply positive_mass_Fin in Hm2 as (m2 & Hm2 & Hpos2).
    destruct Hv1 as (u1 & w1 & Hv1), Hv2 as (u2 & w2 & Hv2).
    assert (momentum s1 s2 =
            Vec2.mk (Fin (u1 * m1 + u2 * m2)) (Fin (w1 * m1 + w2 * m2)))
      as Hmom.
    { unfold momentum. by rewrite Hv1, Hv2, Hm1, Hm2, !scale_Fin, add_Fin. }
    split; [| rewrite Hmom; by eexists _, _].
    rewrite checkForCollision_unfold.
    destruct (F.lt (distance s1 s2) (impactDistance s1 s2)); [|done].
    rewrite Hmom. unfold momentum.
    cbn [fst snd Ship.vel Ship.mass Ship.setVelocity Ship.setPosition].
    rewrite Hn, Hj, Hv1, Hv2, Hm1, Hm2.
    rewrite !F_div_Fin by lra.
    rewrite !scale_Fin, add_Fin, sub_Fin, !scale_Fin, add_Fin.
    f_equal; f_equal; field; lra.
  - rewrite checkForCollision_unfold. intros ->. done.
Qed.

Lemma checkForCollision_conserves_momentum_witness :
  momentum (fst (collisions.checkForCollision ship_left ship_right))
           (snd (collisions.checkForCollision ship_left ship_right)) =
    momentum ship_left ship_right /\
  Vec2.finite (momentum ship_left ship_right).
Proof.
  apply (checkForCollision_conserves_momentum ship_left ship_right).
  - split; [by exists 0%R, 0%R | by exists 5%R, 0%R].
  - split; [by exists 70%R, 0%R | by exists (-5)%R, 0%R].
  - apply F_lt_Fin. lra.
  - apply F_lt_Fin. lra.
  - unfold ship_left, ship_right. cbn [Ship.pos]. intros [= H]. lra.
Defined.

(** *** The response in binary32 *)

(** C1 as stated fails: the ships can overlap after the call as they did
    before.  Two ships with the same center are not moved at all.  Two
    ships with distinct centers are moved apart, but the normal and the
    sum are rounded: for radius 40 and centers (0,0) and (1,1) the
    binary32 code leaves the centers 10485759 * 2^-17 = 79.99999237...
    apart, less than the impact distance 80, so that the test
    [distance < impactDistance] holds again. *)
Lemma checkForCollision_ships_still_overlap :
  (let s1' := fst (collisions.checkForCollision (ship_here 5 0) (ship_here (-5) 1)) in
   let s2' := snd (collisions.checkForCollision (ship_here 5 0) (ship_here (-5) 1)) in
   F.lt (distance (ship_here 5 0) (ship_here (-5) 1))
        (impactDistance (ship_here 5 0) (ship_here (-5) 1)) = true /\
   distance s1' s2' = Fin 0 /\
   F.ge (distance s1' s2') (impactDistance s1' s2') = false) /\
  (let r := B32.checkForCollision (ship32 0 0 0 0) (ship32 1 1 0 0) in
   B32.lt (distance32 (ship32 0 0 0 0) (ship32 1 1 0 0))
          (impactDistance32 (ship32 0 0 0 0) (ship32 1 1 0 0)) = true /\
   impactDistance32 (fst r) (snd r) = B32.of_Z 80 /\
   distance32 (fst r) (snd r) = SpecFloat.S754_finite false 10485759 (-17) /\
   B32.lt (distance32 (fst r) (snd r)) (impactDistance32 (fst r) (snd r))
   = true).
Proof.
  split; [exact checkForCollision_coincident_still_overlap|].
  cbv zeta. repeat split; vm_compute; reflexivity.
Qed.

(** C10 as stated fails in the arithmetic of the code.  Ships of mass 1
    and radius 40 at (0,0) and (64,0) with velocities (1,0) and (3,0)
    collide along the normal (-1,0), which binary32 represents exactly.
    Their x velocities become 8808038 * 2^-22 = 2.0999999046... and
    15938355 * 2^-23 = 1.8999999761...: the two additions are rounded
    independently, and the exact total 33554431 * 2^-23 is not the total 4
    from before.  For ships at (0,0) and (1,1) with velocities (2,0) and
    (-1,0) the totals differ even when they are themselves evaluated in
    binary32. *)
Lemma checkForCollision_momentum_rounds :
  (let r := B32.checkForCollision (ship32 0 0 1 0) (ship32 64 0 3 0) in
   B32.Vec2.x (B32.Ship.vel (fst r)) = SpecFloat.S754_finite false 8808038 (-22) /\
   B32.Vec2.x (B32.Ship.vel (snd r)) = SpecFloat.S754_finite false 15938355 (-23) /\
   B32.Ship.mass (fst r) = B32.of_Z 1 /\ B32.Ship.mass (snd r) = B32.of_Z 1 /\
   exact_momentum_x (ship32 0 0 1 0) (ship32 64 0 3 0) = (33554432 * 2 ^ 275)%Z /\
   exact_momentum_x (fst r) (snd r) = (33554431 * 2 ^ 275)%Z /\
   exact_momentum_x (fst r) (snd r)
   <> exact_momentum_x (ship32 0 0 1 0) (ship32 64 0 3 0)) /\
  (let r := B32.checkForCollision (ship32 0 0 2 0) (ship32 1 1 (-1) 0) in
   B32.eq (B32.Vec2.x (momentum32 (fst r) (snd r)))
          (B32.Vec2.x (momentum32 (ship32 0 0 2 0) (ship32 1 1 (-1) 0)))
   = false /\
   exact_momentum_x (fst r) (snd r)
   <> exact_momentum_x (ship32 0 0 2 0) (ship32 1 1 (-1) 0)).
Proof.
  cbv zeta. repeat split; try (vm_compute; reflexivity);
    vm_compute; discriminate.
Qed.

(** The head-on scenario of the specification gives the same numbers in
    binary32 as in exact arithmetic: centers -5 and 75, velocities -1/2
    and 1/2. *)
Example head_on_scenario32 :
  B32.checkForCollision (ship32 0 0 5 0) (ship32 70 0 (-5) 0) =
  (B32.Ship.mk (B32.Vec2.mk (B32.of_Z (-5)) (B32.of_Z 0))
     (B32.Vec2.mk (B32.div (B32.of_Z (-1)) (B32.of_Z 2)) (B32.of_Z 0))
     (B32.of_Z 40) (B32.of_Z 1),
   B32.Ship.mk (B32.Vec2.mk (B32.of_Z 75) (B32.of_Z 0))
     (B32.Vec2.mk (B32.div (B32.of_Z 1) (B32.of_Z 2)) (B32.of_Z 0))
     (B32.of_Z 40) (B32.of_Z 1)).
Proof. vm_compute. reflexivity. Qed.

(** ** The photon queue *)

Lemma wf_capacity_pos (q : PhotonQueue.t) :
  PhotonQueue.wf q -> (0 < PhotonQueue.capacity q)%nat.
Proof. intros (Hh & _). lia. Qed.

Lemma slot_lt (q : PhotonQueue.t) (i : nat) :
  PhotonQueue.wf q -> (PhotonQueue.slot q i < PhotonQueue.capacity q)%nat.
Proof.
  intros Hwf. apply Nat.mod_upper_bound.
  apply wf_capacity_pos in Hwf. lia.
Qed.

(** Two positions below the capacity occupy different cells. *)
Lemma slot_inj (q : PhotonQueue.t) (i j : nat) :
  PhotonQueue.wf q ->
  (i < PhotonQueue.capacity q)%nat -> (j < PhotonQueue.capacity q)%nat ->
  PhotonQueue.slot q i = PhotonQueue.slot q j -> i = j.
Proof.
  intros Hwf Hi Hj. unfold PhotonQueue.slot.
  set (c := PhotonQueue.capacity q) in *. set (h := PhotonQueue.qhead q).
  intros Heq.
  pose proof (Nat.div_mod_eq (h + i) c) as Ei.
  pose proof (Nat.div_mod_eq (h + j) c) as Ej.
  rewrite Heq in Ei.
  assert ((h + i) / c = (h + j) / c \/ (h + i) / c < (h + j) / c \/
          (h + j) / c < (h + i) / c)%nat as [E | [E | E]] by lia; nia.
Qed.

Lemma get_lt (q : PhotonQueue.t) (i : nat) :
  PhotonQueue.wf q -> (i < PhotonQueue.qsize q)%nat ->
  exists p, PhotonQueue.get q i = Some p /\
            PhotonQueue.queue q !! PhotonQueue.slot q i = Some p.
Proof.
  intros Hwf Hi. unfold PhotonQueue.get.
  apply Nat.ltb_lt in Hi as ->.
  destruct (lookup_lt_is_Some_2 (PhotonQueue.queue q) (PhotonQueue.slot q i))
    as [p Hp]; [by apply slot_lt | by exists p].
Qed.

Lemma get_ge (q : PhotonQueue.t) (i : nat) :
  (PhotonQueue.qsize q <= i)%nat -> PhotonQueue.get q i = None.
Proof.
  intros Hi. unfold PhotonQueue.get.
  by apply Nat.ltb_ge in Hi as ->.
Qed.

Lemma get_Some_lt (q : PhotonQueue.t) (i : nat) (p : Photon.t) :
  PhotonQueue.get q i = Some p ->
  (i < PhotonQueue.qsize q)%nat /\
  PhotonQueue.queue q !! PhotonQueue.slot q i = Some p.
Proof.
  unfold PhotonQueue.get.
  destruct (Nat.ltb_spec i (PhotonQueue.qsize q)); [done | done].
Qed.

(** Looking up a list of options that are all present. *)
Lemma omap_seq_lookup {A : Type} (f : nat -> option A) (n s i : nat) :
  (forall k, (k < n)%nat -> is_Some (f (s + k)%nat)) ->
  omap f (seq s n) !! i = if (i <? n)%nat then f (s + i)%nat else None.
Proof.
  revert s i. induction n as [|n IH]; intros s i Hall.
  - by destruct i.
  - cbn [seq omap list_omap]. destruct (Hall 0%nat) as [a Ha]; [lia|].
    rewrite Nat.add_0_r in Ha. rewrite Ha.
    destruct i as [|i].
    + by rewrite Nat.add_0_r.
    + cbn [lookup list_lookup]. rewrite IH.
      * replace (S s + i)%nat with (s + S i)%nat by lia. done.
      * intros k Hk. replace (S s + k)%nat with (s + S k)%nat by lia.
        apply Hall. lia.
Qed.

(** The list of live photons is the queue read through [get]. *)
Lemma live_lookup (q : PhotonQueue.t) (i : nat) :
  PhotonQueue.wf q -> PhotonQueue.live q !! i = PhotonQueue.get q i.
Proof.
  intros Hwf. unfold PhotonQueue.live. rewrite omap_seq_lookup.
  - destruct (Nat.ltb_spec i (PhotonQueue.qsize q)); [done|].
    by rewrite get_ge.
  - intros k Hk. cbn [Nat.add].
    destruct (get_lt q k Hwf Hk) as (p & -> & _). by eexists.
Qed.

Lemma live_length (q : PhotonQueue.t) :
  PhotonQueue.wf q -> length (PhotonQueue.live q) = PhotonQueue.qsize q.
Proof.
  intros Hwf.
  destruct (Nat.lt_trichotomy (length (PhotonQueue.live q)) (PhotonQueue.qsize q))
    as [H | [H | H]]; [exfalso | done | exfalso].
  - destruct (get_lt q _ Hwf H) as (p & Hp & _).
    rewrite <- live_lookup in Hp by done.
    apply lookup_lt_Some in Hp. lia.
  - destruct (lookup_lt_is_Some_2 (PhotonQueue.live q) (PhotonQueue.qsize q) H)
      as [p Hp].
    rewrite live_lookup, get_ge in Hp; done.
Qed.

(** Allocation appends: the photons already live keep their positions
    and the new photon takes the position after them; a full queue is left
    as it is. *)
Lemma allocate_spec (q : PhotonQueue.t) (id : Z) (p v : Vec2.t) :
  PhotonQueue.wf q ->
  let q' := PhotonQueue.allocate q id p v in
  ((PhotonQueue.size q < PhotonQueue.capacity q)%nat ->
   PhotonQueue.wf q' /\
   PhotonQueue.size q' = S (PhotonQueue.size q) /\
   (forall i, (i < PhotonQueue.size q)%nat ->
              PhotonQueue.get q' i = PhotonQueue.get q i) /\
   PhotonQueue.get q' (PhotonQueue.size q) = Some (Photon.allocate id p v)) /\
  (PhotonQueue.size q = PhotonQueue.capacity q -> q' = q).
Proof.
  intros Hwf q'. subst q'. unfold PhotonQueue.allocate, PhotonQueue.size.
  split.
  - intros Hroom. apply Nat.ltb_lt in Hroom as Hroom'. rewrite Hroom'.
    pose proof Hwf as Hwf0. destruct Hwf as (Hh & Hs & Ht).
    set (new := Photon.allocate id p v).
    assert (PhotonQueue.qtail q < PhotonQueue.capacity q)%nat as Htl.
    { rewrite Ht. apply Nat.mod_upper_bound. lia. }
    unfold PhotonQueue.wf, PhotonQueue.get, PhotonQueue.slot,
      PhotonQueue.capacity in *.
    cbn [PhotonQueue.qhead PhotonQueue.qsize PhotonQueue.qtail
           PhotonQueue.queue].
    rewrite length_insert. split_and!.
    + done.
    + lia.
    + rewrite Ht, Nat.Div0.add_mod_idemp_l. f_equal. lia.
    + lia.
    + intros i Hi.
      assert ((i <? PhotonQueue.qsize q + 1)%nat = true) as ->
        by (apply Nat.ltb_lt; lia).
      apply Nat.ltb_lt in Hi as Hi'. rewrite Hi'.
      apply list_lookup_insert_ne. rewrite Ht. intros Heq.
      assert (PhotonQueue.qsize q = i); [|lia].
      apply (slot_inj q); [exact Hwf0 | exact Hroom | | exact Heq].
      unfold PhotonQueue.capacity. lia.
    + assert ((PhotonQueue.qsize q <? PhotonQueue.qsize q + 1)%nat = true) as ->
        by (apply Nat.ltb_lt; lia).
      rewrite <- Ht. by apply list_lookup_insert_eq.
  - intros Hfull. rewrite Hfull, Nat.ltb_irrefl. done.
Qed.

(** C9: for every state of the queue, [get] at a position from the live
    count on returns null.  In a well-formed queue, [get] at a position
    below the live count returns the photon stored in cell (head +
    position) mod capacity, a cell inside the vector, so no access leaves
    the vector.  Positions count from the oldest photon: a photon allocated
    into a queue that is not full takes the position after all live ones,
    which keep theirs.  The list of live photons is exactly what [get]
    enumerates. *)
Theorem get_in_and_out_of_range (q : PhotonQueue.t) (pos : nat) :
  ((PhotonQueue.size q <= pos)%nat -> PhotonQueue.get q pos = None) /\
  (PhotonQueue.wf q ->
   ((pos < PhotonQueue.size q)%nat ->
    exists p, PhotonQueue.get q pos = Some p /\
              ((PhotonQueue.qhead q + pos) mod PhotonQueue.capacity q
               < length (PhotonQueue.queue q))%nat /\
              PhotonQueue.queue q
                !! ((PhotonQueue.qhead q + pos) mod PhotonQueue.capacity q)
              = Some p /\
              PhotonQueue.live q !! pos = Some p) /\
   length (PhotonQueue.live q) = PhotonQueue.size q /\
   (forall (id : Z) (p v : Vec2.t),
      (PhotonQueue.size q < PhotonQueue.capacity q)%nat ->
      ((pos < PhotonQueue.size q)%nat ->
       PhotonQueue.get (PhotonQueue.allocate q id p v) pos
       = PhotonQueue.get q pos) /\
      PhotonQueue.get (PhotonQueue.allocate q id p v) (PhotonQueue.size q)
      = Some (Photon.allocate id p v))).
Proof.
  split; [apply get_ge|].
  intros Hwf. split_and!.
  - intros Hpos. destruct (get_lt q pos Hwf Hpos) as (p & Hg & Hs).
    exists p. split_and!; try done.
    + apply (slot_lt q pos Hwf).
    + by rewrite live_lookup.
  - by apply live_length.
  - intros id p v Hroom.
    destruct (allocate_spec q id p v Hwf) as (Halloc & _).
    destruct (Halloc Hroom) as (_ & _ & Hold & Hnew).
    split; [apply Hold | apply Hnew].
Qed.

Lemma one_photon_queue_wf : PhotonQueue.wf one_photon_queue.
Proof. repeat split; cbn; lia. Qed.

Lemma get_in_and_out_of_range_witness :
  (exists p, PhotonQueue.get one_photon_queue 0 = Some p /\
             ((PhotonQueue.qhead one_photon_queue + 0)
                mod PhotonQueue.capacity one_photon_queue
              < length (PhotonQueue.queue one_photon_queue))%nat /\
             PhotonQueue.queue one_photon_queue
               !! ((PhotonQueue.qhead one_photon_queue + 0)
                     mod PhotonQueue.capacity one_photon_queue)
             = Some p /\
             PhotonQueue.live one_photon_queue !! 0%nat = Some p) /\
  PhotonQueue.get one_photon_queue 1 = None.
Proof.
  destruct (get_in_and_out_of_range one_photon_queue 0) as (_ & Hin).
  destruct (Hin one_photon_queue_wf) as (Hlive & _).
  destruct (get_in_and_out_of_range one_photon_queue 1) as (Hout & _).
  split; [apply Hlive | apply Hout]; cbn; lia.
Defined.

(** *** Writing through a reference *)

Lemma put_fields (q : PhotonQueue.t) (i : nat) (p : Photon.t) :
  PhotonQueue.qhead (PhotonQueue.put q i p) = PhotonQueue.qhead q /\
  PhotonQueue.qsize (PhotonQueue.put q i p) = PhotonQueue.qsize q /\
  PhotonQueue.qtail (PhotonQueue.put q i p) = PhotonQueue.qtail q /\
  PhotonQueue.texture (PhotonQueue.put q i p) = PhotonQueue.texture q /\
  PhotonQueue.capacity (PhotonQueue.put q i p) = PhotonQueue.capacity q.
Proof.
  unfold PhotonQueue.put, PhotonQueue.capacity. cbn.
  by rewrite length_insert.
Qed.

Lemma put_slot (q : PhotonQueue.t) (i j : nat) (p : Photon.t) :
  PhotonQueue.slot (PhotonQueue.put q i p) j = PhotonQueue.slot q j.
Proof.
  destruct (put_fields q i p) as (Hh & _ & _ & _ & Hc).
  unfold PhotonQueue.slot. by rewrite Hh, Hc.
Qed.

Lemma put_wf (q : PhotonQueue.t) (i : nat) (p : Photon.t) :
  PhotonQueue.wf q -> PhotonQueue.wf (PhotonQueue.put q i p).
Proof.
  destruct (put_fields q i p) as (Hh & Hs & Ht & _ & Hc).
  unfold PhotonQueue.wf. rewrite put_slot, Hh, Hs, Ht, Hc. done.
Qed.

Lemma get_put_eq (q : PhotonQueue.t) (i : nat) (p : Photon.t) :
  PhotonQueue.wf q -> (i < PhotonQueue.qsize q)%nat ->
  PhotonQueue.get (PhotonQueue.put q i p) i = Some p.
Proof.
  intros Hwf Hi. unfold PhotonQueue.get.
  destruct (put_fields q i p) as (_ & -> & _).
  apply Nat.ltb_lt in Hi as ->. rewrite put_slot.
  unfold PhotonQueue.put. cbn. apply list_lookup_insert_eq, slot_lt, Hwf.
Qed.

Lemma get_put_at (q : PhotonQueue.t) (i : nat) (p p' : Photon.t) :
  PhotonQueue.get q i = Some p ->
  PhotonQueue.get (PhotonQueue.put q i p') i = Some p'.
Proof.
  intros Hg. apply get_Some_lt in Hg as (Hi & Hl).
  unfold PhotonQueue.get.
  destruct (put_fields q i p') as (_ & -> & _).
  apply Nat.ltb_lt in Hi as ->. rewrite put_slot.
  unfold PhotonQueue.put. cbn.
  apply list_lookup_insert_eq. by apply lookup_lt_Some in Hl.
Qed.

Lemma get_put_ne (q : PhotonQueue.t) (i j : nat) (p : Photon.t) :
  PhotonQueue.wf q -> (i < PhotonQueue.qsize q)%nat -> i <> j ->
  PhotonQueue.get (PhotonQueue.put q i p) j = PhotonQueue.get q j.
Proof.
  intros Hwf Hi Hne. unfold PhotonQueue.get.
  destruct (put_fields q i p) as (_ & -> & _).
  destruct (Nat.ltb_spec j (PhotonQueue.qsize q)) as [Hj|]; [|done].
  rewrite put_slot. unfold PhotonQueue.put. cbn.
  apply list_lookup_insert_ne. intros Heq. apply Hne.
  destruct Hwf as (Hh & Hs & Ht).
  apply (slot_inj q i j); [done | lia | lia | done].
Qed.

Lemma put_same (q : PhotonQueue.t) (i : nat) (p : Photon.t) :
  PhotonQueue.get q i = Some p -> PhotonQueue.put q i p = q.
Proof.
  intros Hg. apply get_Some_lt in Hg as (_ & Hl).
  unfold PhotonQueue.put, PhotonQueue.set_queue.
  rewrite list_insert_id by done. by destruct q.
Qed.

(** *** PhotonQueue::update *)

Lemma moveStep_wf (q : PhotonQueue.t) (ii : nat) :
  PhotonQueue.wf q -> PhotonQueue.wf (PhotonQueue.moveStep q ii).
Proof.
  intros Hwf. unfold PhotonQueue.moveStep.
  destruct (PhotonQueue.get q ii); [by apply put_wf | done].
Qed.

Lemma moveStep_fields (q : PhotonQueue.t) (ii : nat) :
  PhotonQueue.qhead (PhotonQueue.moveStep q ii) = PhotonQueue.qhead q /\
  PhotonQueue.qsize (PhotonQueue.moveStep q ii) = PhotonQueue.qsize q /\
  PhotonQueue.capacity (PhotonQueue.moveStep q ii) = PhotonQueue.capacity q.
Proof.
  unfold PhotonQueue.moveStep. destruct (PhotonQueue.get q ii); [|done].
  destruct (put_fields q ii (Photon.update t)) as (? & ? & _ & _ & ?). done.
Qed.

(** Moving the photons at the positions [l], each once: a position in
    [l] holds the updated photon, any other position is untouched. *)
Lemma foldl_moveStep (l : list nat) (q : PhotonQueue.t) :
  PhotonQueue.wf q -> NoDup l ->
  let q' := foldl PhotonQueue.moveStep q l in
  PhotonQueue.wf q' /\
  PhotonQueue.qhead q' = PhotonQueue.qhead q /\
  PhotonQueue.qsize q' = PhotonQueue.qsize q /\
  PhotonQueue.capacity q' = PhotonQueue.capacity q /\
  forall j, PhotonQueue.get q' j =
            if bool_decide (j ∈ l) then Photon.update <$> PhotonQueue.get q j
            else PhotonQueue.get q j.
Proof.
  revert q. induction l as [|i l IH]; intros q Hwf Hnd q'; subst q';
    cbn [foldl].
  - split_and!; done.
  - apply NoDup_cons in Hnd as (Hi & Hnd).
    destruct (IH (PhotonQueue.moveStep q i) (moveStep_wf q i Hwf) Hnd)
      as (Hwf' & Hh & Hs & Hc & Hget).
    destruct (moveStep_fields q i) as (Hh1 & Hs1 & Hc1).
    split_and!; try congruence.
    intros j. rewrite Hget. unfold PhotonQueue.moveStep.
    destruct (decide (j = i)) as [-> | Hji].
    + rewrite (bool_decide_eq_false_2 (i ∈ l)) by done.
      rewrite (bool_decide_eq_true_2 (i ∈ i :: l)) by (apply elem_of_cons; left; reflexivity).
      destruct (PhotonQueue.get q i) as [p|] eqn:Hp; [|by rewrite Hp].
      apply get_put_eq; [done | by apply get_Some_lt in Hp as [? _]].
    + assert (PhotonQueue.get
                match PhotonQueue.get q i with
                | Some p => PhotonQueue.put q i (Photon.update p)
                | None => q
                end j = PhotonQueue.get q j) as ->.
      { destruct (PhotonQueue.get q i) as [p|] eqn:Hp; [|done].
        apply get_put_ne; [done | by apply get_Some_lt in Hp as [? _] | done]. }
      destruct (decide (j ∈ l)) as [Hin | Hnin].
      * rewrite !bool_decide_eq_true_2; [done | by (apply elem_of_cons; right) | done].
      * rewrite !bool_decide_eq_false_2; [done | | done].
        intros [?|?]%elem_of_cons; done.
Qed.

Lemma moveAll_spec (q : PhotonQueue.t) :
  PhotonQueue.wf q ->
  PhotonQueue.wf (PhotonQueue.moveAll q) /\
  PhotonQueue.qhead (PhotonQueue.moveAll q) = PhotonQueue.qhead q /\
  PhotonQueue.qsize (PhotonQueue.moveAll q) = PhotonQueue.qsize q /\
  PhotonQueue.capacity (PhotonQueue.moveAll q) = PhotonQueue.capacity q /\
  (forall j, PhotonQueue.get (PhotonQueue.moveAll q) j =
             Photon.update <$> PhotonQueue.get q j) /\
  PhotonQueue.live (PhotonQueue.moveAll q) =
    Photon.update <$> PhotonQueue.live q.
Proof.
  intros Hwf.
  destruct (foldl_moveStep (seq 0 (PhotonQueue.qsize q)) q Hwf (NoDup_seq _ _))
    as (Hwf' & Hh & Hs & Hc & Hget).
  change (foldl PhotonQueue.moveStep q (seq 0 (PhotonQueue.qsize q)))
    with (PhotonQueue.moveAll q) in *.
  assert (forall j, PhotonQueue.get (PhotonQueue.moveAll q) j =
                    Photon.update <$> PhotonQueue.get q j) as Hget'.
  { intros j. rewrite Hget.
    destruct (decide (j ∈ seq 0 (PhotonQueue.qsize q))) as [Hin | Hnin].
    - by rewrite bool_decide_eq_true_2.
    - rewrite bool_decide_eq_false_2 by done.
      rewrite get_ge; [done|]. rewrite elem_of_seq in Hnin. lia. }
  split_and!; try done.
  apply list_eq. intros i.
  rewrite list_lookup_fmap, !live_lookup by done. apply Hget'.
Qed.

Lemma pop_wf (q : PhotonQueue.t) :
  PhotonQueue.wf q -> (0 < PhotonQueue.qsize q)%nat ->
  PhotonQueue.wf (PhotonQueue.pop q).
Proof.
  intros (Hh & Hs & Ht) Hpos.
  unfold PhotonQueue.wf, PhotonQueue.pop, PhotonQueue.slot, PhotonQueue.capacity
    in *. cbn.
  split_and!.
  - apply Nat.mod_upper_bound. lia.
  - lia.
  - rewrite Ht, Nat.Div0.add_mod_idemp_l. f_equal. lia.
Qed.

Lemma get_pop (q : PhotonQueue.t) (i : nat) :
  (0 < PhotonQueue.qsize q)%nat ->
  PhotonQueue.get (PhotonQueue.pop q) i = PhotonQueue.get q (S i).
Proof.
  intros Hpos.
  unfold PhotonQueue.get, PhotonQueue.pop, PhotonQueue.slot,
    PhotonQueue.capacity.
  cbn [PhotonQueue.qsize PhotonQueue.qhead PhotonQueue.queue].
  rewrite Nat.Div0.add_mod_idemp_l.
  replace (PhotonQueue.qhead q + 1 + i)%nat
    with (PhotonQueue.qhead q + S i)%nat by lia.
  destruct (Nat.ltb_spec i (PhotonQueue.qsize q - 1)),
    (Nat.ltb_spec (S i) (PhotonQueue.qsize q)); try done; lia.
Qed.

Lemma live_pop (q : PhotonQueue.t) (p : Photon.t) :
  PhotonQueue.wf q -> PhotonQueue.get q 0 = Some p ->
  PhotonQueue.live q = p :: PhotonQueue.live (PhotonQueue.pop q).
Proof.
  intros Hwf Hp.
  assert (0 < PhotonQueue.qsize q)%nat as Hpos by (by apply get_Some_lt in Hp as [? _]).
  apply list_eq. intros [|i].
  - by rewrite live_lookup.
  - cbn [lookup list_lookup].
    change ((p :: PhotonQueue.live (PhotonQueue.pop q)) !! S i)
      with (PhotonQueue.live (PhotonQueue.pop q) !! i).
    rewrite !live_lookup by (try apply pop_wf; done).
    by rewrite get_pop.
Qed.

Lemma live_empty (q : PhotonQueue.t) :
  PhotonQueue.wf q -> PhotonQueue.get q 0 = None -> PhotonQueue.live q = [].
Proof.
  intros Hwf Hg. apply list_eq. intros i. rewrite live_lookup by done.
  destruct (Nat.eq_dec (PhotonQueue.qsize q) 0) as [H0 | Hpos].
  - rewrite get_ge; [done | lia].
  - destruct (get_lt q 0 Hwf) as (p & Hp & _); [lia | congruence].
Qed.

Lemma drop_old_suffix (M : Z) (l : list Photon.t) :
  exists k, drop_old M l = drop k l /\ (k <= length l)%nat /\
            Forall (fun p => (M <= Photon.age p)%Z) (take k l).
Proof.
  induction l as [|p l (k & Hk & Hlen & Hold)]; cbn [drop_old].
  - exists 0%nat. by split_and!.
  - destruct (Z.leb_spec M (Photon.age p)).
    + exists (S k). cbn. split_and!; [done | lia | by constructor].
    + exists 0%nat. cbn. split_and!; [done | lia | done].
Qed.

Lemma retire_spec (M : Z) (fuel : nat) (q : PhotonQueue.t) :
  PhotonQueue.wf q -> (PhotonQueue.qsize q <= fuel)%nat ->
  let q' := PhotonQueue.retire M fuel q in
  PhotonQueue.wf q' /\
  PhotonQueue.live q' = drop_old M (PhotonQueue.live q) /\
  PhotonQueue.capacity q' = PhotonQueue.capacity q /\
  PhotonQueue.queue q' = PhotonQueue.queue q /\
  PhotonQueue.qhead q' =
    ((PhotonQueue.qhead q + (PhotonQueue.qsize q - PhotonQueue.qsize q'))
       mod PhotonQueue.capacity q)%nat /\
  (PhotonQueue.qsize q' <= PhotonQueue.qsize q)%nat.
Proof.
  revert q. induction fuel as [|fuel IH]; intros q Hwf Hfuel q'; subst q';
    cbn [PhotonQueue.retire].
  - rewrite (live_empty q Hwf) by (apply get_ge; lia).
    split_and!; try done.
    rewrite Nat.sub_diag, Nat.add_0_r, Nat.mod_small; [done | apply Hwf].
  - destruct (PhotonQueue.get q 0) as [p|] eqn:Hp.
    + rewrite (live_pop q p Hwf Hp). cbn [drop_old].
      destruct (Z.leb_spec M (Photon.age p)).
      * assert (0 < PhotonQueue.qsize q)%nat as Hpos
          by (by apply get_Some_lt in Hp as [? _]).
        destruct (IH (PhotonQueue.pop q) (pop_wf q Hwf Hpos))
          as (Hwf' & Hlive & Hcap & Hqueue & Hhead & Hsize);
          [cbn; lia|].
        split_and!; try done.
        -- rewrite Hhead. cbn [PhotonQueue.pop PhotonQueue.qhead
             PhotonQueue.qsize PhotonQueue.capacity PhotonQueue.queue] in *.
           change (length (PhotonQueue.queue q)) with (PhotonQueue.capacity q).
           rewrite Nat.Div0.add_mod_idemp_l. f_equal. lia.
        -- cbn [PhotonQueue.pop PhotonQueue.qsize] in Hsize. lia.
      * rewrite <- (live_pop q p Hwf Hp). split_and!; try done.
        rewrite Nat.sub_diag, Nat.add_0_r, Nat.mod_small; [done | apply Hwf].
    + rewrite (live_empty q Hwf Hp). split_and!; try done.
      rewrite Nat.sub_diag, Nat.add_0_r, Nat.mod_small; [done | apply Hwf].
Qed.

Lemma oldest_first_tail (p : Photon.t) (l : list Photon.t) :
  oldest_first (p :: l) -> oldest_first l.
Proof.
  intros H i j a b Hij Ha Hb. apply (H (S i) (S j)); [lia | done | done].
Qed.

Lemma drop_old_young (M : Z) (l : list Photon.t) :
  oldest_first l ->
  Forall (fun p => (Photon.age p < M)%Z) (drop_old M l).
Proof.
  induction l as [|p l IH]; intros Hsorted; cbn [drop_old]; [done|].
  destruct (Z.leb_spec M (Photon.age p)) as [Hold | Hyoung].
  - apply IH. by apply oldest_first_tail in Hsorted.
  - apply Forall_lookup. intros j p' Hp'.
    assert (Photon.age p' <= Photon.age p)%Z; [|lia].
    apply (Hsorted 0%nat j); [lia | done | done].
Qed.

Lemma oldest_first_update (l : list Photon.t) :
  oldest_first l -> oldest_first (Photon.update <$> l).
Proof.
  intros H i j p p' Hij. rewrite !list_lookup_fmap.
  destruct (l !! i) as [a|] eqn:Ha, (l !! j) as [b|] eqn:Hb; try done.
  intros [= <-] [= <-]. cbn. specialize (H i j a b Hij Ha Hb). lia.
Qed.

(** [update] on a well-formed queue: every live photon's position is
    integrated by its velocity and its age incremented by 1; then photons
    are retired from the head while the head's age has reached MAX_AGE,
    advancing the head and decrementing the live count for each.  The
    retired photons are the k oldest (FIFO order).  When the live photons
    are in age order, oldest first, no live photon has age >= MAX_AGE
    afterwards. *)
Lemma update_moves_then_retires (M : Z) (q : PhotonQueue.t) :
  PhotonQueue.wf q ->
  let moved := Photon.update <$> PhotonQueue.live q in
  let q' := PhotonQueue.update M q in
  (forall i p, PhotonQueue.live q !! i = Some p ->
     moved !! i =
       Some (Photon.mk (Vec2.add (Photon.pos p) (Photon.vel p)) (Photon.vel p)
               (Photon.ship p) (Photon.age p + 1) (Photon.scale p))) /\
  PhotonQueue.wf q' /\
  PhotonQueue.live q' = drop_old M moved /\
  (exists k, PhotonQueue.live q' = drop k moved /\
             Forall (fun p => (M <= Photon.age p)%Z) (take k moved) /\
             PhotonQueue.size q' = (PhotonQueue.size q - k)%nat /\
             (k <= PhotonQueue.size q)%nat /\
             PhotonQueue.qhead q' =
               ((PhotonQueue.qhead q + k) mod PhotonQueue.capacity q)%nat) /\
  (forall p, (M <= Photon.age p)%Z -> head (PhotonQueue.live q') <> Some p) /\
  (oldest_first (PhotonQueue.live q) ->
   Forall (fun p => (Photon.age p < M)%Z) (PhotonQueue.live q')).
Proof.
  intros Hwf moved q'.
  destruct (moveAll_spec q Hwf) as (Hwf1 & Hh1 & Hs1 & Hc1 & _ & Hlive1).
  destruct (retire_spec M (PhotonQueue.qsize (PhotonQueue.moveAll q))
              (PhotonQueue.moveAll q) Hwf1 (Nat.le_refl _))
    as (Hwf2 & Hlive2 & Hc2 & _ & Hh2 & Hs2).
  change (PhotonQueue.retire M (PhotonQueue.qsize (PhotonQueue.moveAll q))
            (PhotonQueue.moveAll q)) with q' in *.
  rewrite Hlive1 in Hlive2. fold moved in Hlive2.
  assert (length moved = PhotonQueue.qsize q) as Hlen.
  { unfold moved. by rewrite length_fmap, live_length. }
  split_and!.
  - intros i p Hp. unfold moved. by rewrite list_lookup_fmap, Hp.
  - done.
  - done.
  - destruct (drop_old_suffix M moved) as (k & Hk & Hle & Hold).
    exists k. rewrite Hlive2.
    assert (PhotonQueue.qsize q' = (PhotonQueue.qsize q - k)%nat) as Hsz.
    { rewrite <- (live_length q' Hwf2), Hlive2, Hk, length_drop. lia. }
    unfold PhotonQueue.size. split_and!.
    + done.
    + done.
    + done.
    + lia.
    + rewrite Hh2, Hh1, Hs1, Hc1, Hsz. f_equal. lia.
  - intros p Hold. rewrite Hlive2. clear -Hold.
    induction moved as [|a l IH]; cbn [drop_old]; [done|].
    destruct (Z.leb_spec M (Photon.age a)); [done|].
    cbn. intros [= ->]. lia.
  - intros Hsorted. rewrite Hlive2.
    by apply drop_old_young, oldest_first_update.
Qed.

Lemma update_moves_then_retires_witness :
  PhotonQueue.live (PhotonQueue.update 5 one_photon_queue) =
  drop_old 5 (Photon.update <$> PhotonQueue.live one_photon_queue).
Proof.
  apply (update_moves_then_retires 5 one_photon_queue one_photon_queue_wf).
Defined.



(** The pool scenario of the specification: capacity 3, MAX_AGE 5, one
    photon allocated in each of the frames 0, 1 and 2 (owners 10, 11, 12
    tell them apart), one [update] per frame.  The photons retire one per
    frame from frame 4 on, in allocation order. *)
Example pool_scenario :
  let fire q id :=
    PhotonQueue.allocate q id (Vec2.mk (Fin 0) (Fin 0)) (Vec2.mk (Fin 1) (Fin 0)) in
  let frame0 := PhotonQueue.update 5 (fire (PhotonQueue.init 3) 10%Z) in
  let frame1 := PhotonQueue.update 5 (fire frame0 11%Z) in
  let frame2 := PhotonQueue.update 5 (fire frame1 12%Z) in
  let frame3 := PhotonQueue.update 5 frame2 in
  let frame4 := PhotonQueue.update 5 frame3 in
  let frame5 := PhotonQueue.update 5 frame4 in
  let frame6 := PhotonQueue.update 5 frame5 in
  Photon.ship <$> PhotonQueue.live frame3 = [10; 11; 12]%Z /\
  Photon.age <$> PhotonQueue.live frame3 = [4; 3; 2]%Z /\
  Photon.ship <$> PhotonQueue.live frame4 = [11; 12]%Z /\
  Photon.ship <$> PhotonQueue.live frame5 = [12]%Z /\
  PhotonQueue.size frame6 = 0%nat /\
  PhotonQueue.size (fire (fire frame2 13%Z) 14%Z) = 3%nat.
Proof. cbv zeta. split_and!; reflexivity. Qed.

(** ** Ship against photons *)

Section ShipPhotons.

Variable MAX_AGE : Z.
Variable pradius : float.

Lemma hitPhoton_sid (s : Ship.t) (p : Photon.t) :
  Ship.sid (fst (collisions.hitPhoton MAX_AGE pradius s p)) = Ship.sid s /\
  Photon.ship (snd (collisions.hitPhoton MAX_AGE pradius s p)) = Photon.ship p.
Proof.
  unfold collisions.hitPhoton. destruct (F.lt _ _); done.
Qed.

(** The iteration that visits one of the ship's own photons does
    nothing. *)
Lemma checkPhoton_own (s : Ship.t) (q : PhotonQueue.t) (ii : nat)
  (p : Photon.t) :
  PhotonQueue.get q ii = Some p -> Photon.ship p = Ship.sid s ->
  collisions.checkPhoton MAX_AGE pradius (s, q) ii = (s, q).
Proof.
  intros Hg Hown. unfold collisions.checkPhoton, Ship.getSID.
  rewrite Hg, Hown, Z.eqb_refl. done.
Qed.

Lemma preserved_get (s : Ship.t) (q : PhotonQueue.t)
  (r : Ship.t * PhotonQueue.t) (j : nat) (p : Photon.t) :
  preserved s q r ->
  PhotonQueue.get q j = Some p -> Photon.ship p = Ship.sid s ->
  PhotonQueue.get (snd r) j = Some p.
Proof.
  intros (_ & Hh & Hs & Hc & Hcell) Hg Hown.
  apply get_Some_lt in Hg as (Hj & Hl).
  unfold PhotonQueue.get, PhotonQueue.slot. rewrite Hs, Hh, Hc.
  apply Nat.ltb_lt in Hj as ->. by apply Hcell.
Qed.

Lemma checkPhoton_inv (s : Ship.t) (q : PhotonQueue.t) (ii : nat) :
  preserved s q (collisions.checkPhoton MAX_AGE pradius (s, q) ii).
Proof.
  unfold collisions.checkPhoton, Ship.getSID.
  destruct (PhotonQueue.get q ii) as [p|] eqn:Hp; [|by split_and!].
  destruct (Z.eqb_spec (Photon.ship p) (Ship.sid s)) as [Hown | Hother];
    cbn [negb]; [by split_and!|].
  destruct (hitPhoton_sid s p) as (Hsid & Hship).
  destruct (collisions.hitPhoton MAX_AGE pradius s p) as [s' p'].
  cbn [fst snd] in *.
  destruct (put_fields q ii p') as (Hh & Hs & _ & _ & Hc).
  split_and!; try done. cbn [snd].
  intros c a Ha Hown. unfold PhotonQueue.put. cbn [PhotonQueue.queue
    PhotonQueue.set_queue].
  rewrite list_lookup_insert_ne; [done|].
  intros <-. apply get_Some_lt in Hp as (_ & Hp). congruence.
Qed.

Lemma foldl_checkPhoton_inv (l : list nat) (s : Ship.t) (q : PhotonQueue.t) :
  preserved s q (foldl (collisions.checkPhoton MAX_AGE pradius) (s, q) l).
Proof.
  revert s q. induction l as [|i l IH]; intros s q; cbn [foldl].
  - by split_and!.
  - destruct (checkPhoton_inv s q i) as (Hsid & Hh & Hs & Hc & Hcell).
    destruct (collisions.checkPhoton MAX_AGE pradius (s, q) i) as [s1 q1].
    cbn [fst snd] in *.
    destruct (IH s1 q1) as (Hsid' & Hh' & Hs' & Hc' & Hcell').
    split_and!; try congruence.
    intros c p Hp Hship. apply Hcell'; [by apply Hcell | congruence].
Qed.

End ShipPhotons.

Lemma after_all_iterations (M : Z) (s : Ship.t) (q : PhotonQueue.t) :
  collisions.checkForCollisionPhotons M s q =
  after_iterations M s q (PhotonQueue.size q).
Proof. reflexivity. Qed.

(** C7: in [checkForCollision(ship, photons)], for every ship and every
    state of the queue, a live photon whose owner is the ship's SID never
    triggers a response: the iteration that visits it leaves the ship
    (position and velocity included) and the whole queue as they were,
    wherever the photon is and however it moves, and at the end of the call
    the photon is in the queue unchanged, in particular not destroyed.  If
    every live photon is the ship's own, the call changes nothing at
    all. *)
Theorem own_photons_never_collide (M : Z) (s : Ship.t) (q : PhotonQueue.t) :
  (forall i p,
     PhotonQueue.get q i = Some p -> Photon.ship p = Ship.getSID s ->
     after_iterations M s q (S i) = after_iterations M s q i /\
     PhotonQueue.get (snd (collisions.checkForCollisionPhotons M s q)) i
     = Some p) /\
  ((forall i p, PhotonQueue.get q i = Some p -> Photon.ship p = Ship.getSID s) ->
   collisions.checkForCollisionPhotons M s q = (s, q)).
Proof.
  unfold Ship.getSID. split.
  - intros i p Hp Hown. split.
    + unfold after_iterations. rewrite seq_S, foldl_app. cbn [foldl Nat.add].
      pose proof (foldl_checkPhoton_inv M (collisions.photonRadius q)
                    (seq 0 i) s q) as Hinv.
      pose proof (preserved_get s q _ i p Hinv Hp Hown) as Hkeep.
      destruct Hinv as (Hsid & _).
      destruct (foldl _ (s, q) (seq 0 i)) as [s1 q1]. cbn [fst snd] in *.
      apply (checkPhoton_own M _ s1 q1 i p); [done | congruence].
    + apply (preserved_get s q); [apply foldl_checkPhoton_inv | done | done].
  - intros Hall. unfold collisions.checkForCollisionPhotons.
    generalize (collisions.photonRadius q). intros pr.
    generalize (seq 0 (PhotonQueue.size q)). intros l.
    induction l as [|i l IH]; [done|]. cbn [foldl].
    assert (collisions.checkPhoton M pr (s, q) i = (s, q)) as ->; [|done].
    destruct (PhotonQueue.get q i) as [p|] eqn:Hp.
    + apply (checkPhoton_own M pr s q i p Hp (Hall i p Hp)).
    + unfold collisions.checkPhoton. by rewrite Hp.
Qed.

Lemma own_photons_never_collide_witness :
  collisions.checkForCollisionPhotons 5 (Ship.default 1) one_photon_queue =
  (Ship.default 1, one_photon_queue).
Proof.
  apply (own_photons_never_collide 5 (Ship.default 1) one_photon_queue).
  intros i p Hp. apply get_Some_lt in Hp as [Hi Hl].
  assert (i = 0%nat) as -> by (cbn in Hi; lia).
  cbn in Hl. injection Hl as <-. reflexivity.
Defined.

(** ** Coinciding positions *)

Lemma coincident_distance (s1 s2 : Ship.t) (x y : R) :
  Ship.pos s1 = Vec2.mk (Fin x) (Fin y) ->
  Ship.pos s2 = Vec2.mk (Fin x) (Fin y) ->
  distance s1 s2 = Fin 0 /\ normal s1 s2 = Vec2.mk (Fin 0) (Fin 0).
Proof.
  intros H1 H2. unfold distance, normal.
  rewrite (coincident_sub _ _ x y H1 H2), length_zero, normalize_zero. done.
Qed.

Lemma half_overlap_finite (rs : float) :
  F.lt (Fin 0) rs = true ->
  F.is_nan (F.div (F.sub rs (Fin 0)) (Fin 2)) = false.
Proof.
  intros H. apply F_lt_true_finite in H as (z & r & _ & -> & _).
  cbn [F.sub F.lift2]. by rewrite F_div_Fin by lra.
Qed.

Lemma hitPhoton_coincident (M : Z) (pr : float) (s : Ship.t) (p : Photon.t)
  (x y : R) :
  Ship.pos s = Vec2.mk (Fin x) (Fin y) ->
  Photon.pos p = Vec2.mk (Fin x) (Fin y) ->
  let impact := F.add (Ship.radius s) (F.mul pr (Photon.scale p)) in
  (F.lt (Fin 0) impact = false -> collisions.hitPhoton M pr s p = (s, p)) /\
  (F.lt (Fin 0) impact = true ->
   Ship.pos (fst (collisions.hitPhoton M pr s p)) = Ship.pos s /\
   snd (collisions.hitPhoton M pr s p) = Photon.destroy M p).
Proof.
  intros Hs Hp impact. unfold collisions.hitPhoton, Ship.getPosition,
    Ship.getRadius.
  rewrite (coincident_sub _ _ x y Hs Hp), length_zero, normalize_zero.
  fold impact. split; intros Hlt; rewrite Hlt; [done|].
  cbn [fst snd Ship.pos Ship.setVelocity Ship.setPosition]. split; [|done].
  apply (push_along_zero (Ship.pos s) x y _ false Hs).
  by apply half_overlap_finite.
Qed.

(** C2, as amended: a collision check at two coinciding (finite)
    positions compares the distance 0 with the impact distance like any
    other distance.  When the impact distance is not positive, or the
    photon is the ship's own, the check resolves to no collision and
    nothing is mutated.  When it is positive, the response runs along the
    zero normal: the positions of the ships stay where they are, and in a
    ship-photon check the photon is destroyed. *)
Theorem coincident_positions_response :
  (forall (s1 s2 : Ship.t) (x y : R),
     Ship.pos s1 = Vec2.mk (Fin x) (Fin y) ->
     Ship.pos s2 = Vec2.mk (Fin x) (Fin y) ->
     (F.lt (Fin 0) (impactDistance s1 s2) = false ->
      collisions.checkForCollision s1 s2 = (s1, s2)) /\
     (F.lt (Fin 0) (impactDistance s1 s2) = true ->
      Ship.pos (fst (collisions.checkForCollision s1 s2)) = Ship.pos s1 /\
      Ship.pos (snd (collisions.checkForCollision s1 s2)) = Ship.pos s2)) /\
  (forall (M : Z) (s : Ship.t) (q : PhotonQueue.t) (ii : nat) (p : Photon.t)
          (x y : R),
     PhotonQueue.get q ii = Some p ->
     Ship.pos s = Vec2.mk (Fin x) (Fin y) ->
     Photon.pos p = Vec2.mk (Fin x) (Fin y) ->
     let pr := collisions.photonRadius q in
     let impact := F.add (Ship.radius s) (F.mul pr (Photon.scale p)) in
     (Photon.ship p = Ship.sid s \/ F.lt (Fin 0) impact = false ->
      collisions.checkPhoton M pr (s, q) ii = (s, q)) /\
     (Photon.ship p <> Ship.sid s -> F.lt (Fin 0) impact = true ->
      Ship.pos (fst (collisions.checkPhoton M pr (s, q) ii)) = Ship.pos s /\
      PhotonQueue.get (snd (collisions.checkPhoton M pr (s, q) ii)) ii
      = Some (Photon.destroy M p))).
Proof.
  split.
  - intros s1 s2 x y H1 H2. rewrite checkForCollision_unfold.
    destruct (coincident_distance s1 s2 x y H1 H2) as (Hd & Hn).
    rewrite Hd, Hn. split; intros Hlt; rewrite Hlt; [done|].
    cbn [fst snd Ship.pos Ship.setVelocity Ship.setPosition].
    unfold halfOverlap. rewrite Hd.
    pose proof (half_overlap_finite _ Hlt) as Hfin.
    split.
    + by apply (push_along_zero (Ship.pos s1) x y _ false H1).
    + by apply (push_along_zero (Ship.pos s2) x y _ true H2).
  - intros M s q ii p x y Hg Hs Hp pr impact.
    destruct (hitPhoton_coincident M pr s p x y Hs Hp) as (Hmiss & Hhit).
    fold impact in Hmiss, Hhit.
    split.
    + intros [Hown | Hlt].
      * by apply (checkPhoton_own M pr s q ii p).
      * unfold collisions.checkPhoton. rewrite Hg.
        destruct (negb _); [|done].
        rewrite (Hmiss Hlt). by rewrite put_same.
    + intros Hother Hlt. unfold collisions.checkPhoton, Ship.getSID.
      rewrite Hg.
      destruct (Z.eqb_spec (Photon.ship p) (Ship.sid s)) as [|_]; [done|].
      cbn [negb]. destruct (Hhit Hlt) as (Hpos & Hdes).
      destruct (collisions.hitPhoton M pr s p) as [s' p'].
      cbn [fst snd] in *. subst p'. split; [done|].
      by apply (get_put_at q ii p).
Qed.

Lemma ships_here_impact :
  F.lt (Fin 0) (impactDistance (ship_here 5 0) (ship_here (-5) 1)) = true.
Proof.
  unfold impactDistance, ship_here. cbn [Ship.radius F.add F.lift2].
  apply F_lt_Fin. lra.
Qed.

Lemma coincident_positions_response_witness :
  Ship.pos (fst (collisions.checkForCollision (ship_here 5 0) (ship_here (-5) 1)))
    = Ship.pos (ship_here 5 0) /\
  Ship.pos (snd (collisions.checkForCollision (ship_here 5 0) (ship_here (-5) 1)))
    = Ship.pos (ship_here (-5) 1).
Proof.
  destruct coincident_positions_response as (Hships & _).
  apply (Hships (ship_here 5 0) (ship_here (-5) 1) 0%R 0%R eq_refl eq_refl).
  exact ships_here_impact.
Defined.

(** With coinciding positions the velocity the photon response gives the
    ship is not a number either. *)
Lemma hitPhoton_coincident_vel (M : Z) (pr : float) (s : Ship.t)
  (p : Photon.t) (x y : R) :
  Ship.pos s = Vec2.mk (Fin x) (Fin y) ->
  Photon.pos p = Vec2.mk (Fin x) (Fin y) ->
  F.lt (Fin 0) (F.add (Ship.radius s) (F.mul pr (Photon.scale p))) = true ->
  Ship.vel (fst (collisions.hitPhoton M pr s p)) = Vec2.mk NaN NaN.
Proof.
  intros Hs Hp Hlt. unfold collisions.hitPhoton, Ship.getPosition,
    Ship.getRadius, Ship.getVelocity, Ship.getMass.
  rewrite (coincident_sub _ _ x y Hs Hp), length_zero, normalize_zero, Hlt.
  cbn [fst Ship.vel Ship.setVelocity Ship.setPosition Ship.mass].
  replace (Vec2.dot (Vec2.mk (Fin 0) (Fin 0)) (Vec2.mk (Fin 0) (Fin 0)))
    with (Fin 0) by (rewrite dot_Fin; f_equal; lra).
  rewrite div_by_zero_product.
  apply (add_scale_nan _ _ _ false).
Qed.

Lemma photon_here_impact :
  F.lt (Fin 0)
    (F.add (Ship.radius (ship_here 5 0))
       (F.mul (collisions.photonRadius one_photon_queue)
          (Photon.scale photon_here))) = true.
Proof.
  unfold collisions.photonRadius, ship_here, photon_here.
  cbn. apply F_lt_Fin. lra.
Qed.

Lemma photon_here_result :
  collisions.checkForCollisionPhotons 5 (ship_here 5 0) one_photon_queue =
  (fst (collisions.hitPhoton 5 (collisions.photonRadius one_photon_queue)
          (ship_here 5 0) photon_here),
   PhotonQueue.put one_photon_queue 0
     (snd (collisions.hitPhoton 5 (collisions.photonRadius one_photon_queue)
             (ship_here 5 0) photon_here))).
Proof.
  unfold collisions.checkForCollisionPhotons.
  change (seq 0 (PhotonQueue.size one_photon_queue)) with [0%nat].
  cbn [foldl]. unfold collisions.checkPhoton.
  change (PhotonQueue.get one_photon_queue 0) with (Some photon_here).
  change (negb (Photon.ship photon_here =? Ship.getSID (ship_here 5 0))%Z)
    with true.
  cbv iota. by destruct (collisions.hitPhoton _ _ _ _).
Qed.

(** C2 as stated fails.  Two ships with the same center and radius 40:
    [checkForCollision] takes the collision branch (0 < 80), the impulse is
    0/0, and both velocities become NaN.  A ship and a foreign photon at
    the same point: the photon is destroyed and the ship's velocity becomes
    NaN. *)
Lemma coincident_positions_not_guarded :
  Ship.pos (ship_here 5 0) = Ship.pos (ship_here (-5) 1) /\
  Ship.vel (fst (collisions.checkForCollision (ship_here 5 0) (ship_here (-5) 1)))
    = Vec2.mk NaN NaN /\
  Ship.vel (snd (collisions.checkForCollision (ship_here 5 0) (ship_here (-5) 1)))
    = Vec2.mk NaN NaN /\
  collisions.checkForCollision (ship_here 5 0) (ship_here (-5) 1)
    <> (ship_here 5 0, ship_here (-5) 1) /\
  PhotonQueue.get one_photon_queue 0 = Some photon_here /\
  Photon.pos photon_here = Ship.pos (ship_here 5 0) /\
  Photon.ship photon_here <> Ship.getSID (ship_here 5 0) /\
  PhotonQueue.get
    (snd (collisions.checkForCollisionPhotons 5 (ship_here 5 0) one_photon_queue))
    0 = Some (Photon.destroy 5 photon_here) /\
  Photon.destroy 5 photon_here <> photon_here /\
  Ship.vel
    (fst (collisions.checkForCollisionPhotons 5 (ship_here 5 0) one_photon_queue))
    = Vec2.mk NaN NaN.
Proof.
  rewrite coincident_result, photon_here_result. cbn [fst snd].
  destruct (hitPhoton_coincident 5 (collisions.photonRadius one_photon_queue)
              (ship_here 5 0) photon_here 0 0 eq_refl eq_refl) as (_ & Hhit).
  destruct (Hhit photon_here_impact) as (_ & ->).
  split_and!; try done.
  apply (hitPhoton_coincident_vel 5 _ (ship_here 5 0) photon_here 0 0
           eq_refl eq_refl photon_here_impact).
Qed.

(** * Further properties of the code *)

(** ** Ship::processTurn *)

Lemma processTurn_dang_turning (s : Ship.t) (d t : R) :
  Ship.dang s = Fin d -> t <> 0%R ->
  Ship.dang (Ship.processTurn s (Fin t)) =
  Fin (Rmax (-5) (Rmin 5 (d - 10 * t))).
Proof.
  intros Hd Ht. unfold Ship.processTurn, Ship.BANK_FACTOR, Ship.MAXIMUM_BANK.
  assert (F.ne (Fin t) (Fin 0) = true) as -> by (by apply F_ne_Fin).
  fcbn. rewrite Hd. rewrite F_div_Fin by lra. fcbn.
  destruct (F.lt _ _) eqn:Hlo; fcbn.
  - apply F_lt_Fin in Hlo. f_equal.
    unfold Rmax, Rmin. repeat destruct (Rle_dec _ _); lra.
  - apply F_lt_Fin_false in Hlo.
    destruct (F.gt _ _) eqn:Hhi; fcbn.
    + apply F_lt_Fin in Hhi. f_equal.
      unfold Rmax, Rmin. repeat destruct (Rle_dec _ _); lra.
    + apply F_lt_Fin_false in Hhi. f_equal.
      unfold Rmax, Rmin. repeat destruct (Rle_dec _ _); lra.
Qed.

(** X1: with a turn input that is not zero, [Ship::processTurn] subtracts
    ten times the input from the angular rate and clamps the result to
    [-MAXIMUM_BANK, MAXIMUM_BANK], whatever the rate was before.  As the
    step is twice the bound, an input of 1 or -1 on a rate within the
    bounds saturates the rate at once: it becomes -5 or 5. *)
Theorem processTurn_clamps_and_saturates (s : Ship.t) (d t : R) :
  Ship.dang s = Fin d -> t <> 0%R ->
  exists d', Ship.dang (Ship.processTurn s (Fin t)) = Fin d' /\
             d' = Rmax (-5) (Rmin 5 (d - 10 * t)) /\
             (-5 <= d' <= 5)%R /\
             ((-5 <= d <= 5)%R -> (1 <= t)%R -> d' = (-5)%R) /\
             ((-5 <= d <= 5)%R -> (t <= -1)%R -> d' = 5%R).
Proof.
  intros Hd Ht. eexists. split; [by apply processTurn_dang_turning|].
  split; [done|].
  split_and!; try intros Hr Hsat;
    unfold Rmax, Rmin; repeat destruct (Rle_dec _ _); lra.
Qed.

Lemma processTurn_clamps_and_saturates_witness :
  exists d', Ship.dang (Ship.processTurn (Ship.default 0) (Fin 1)) = Fin d' /\
             d' = (-5)%R.
Proof.
  destruct (processTurn_clamps_and_saturates (Ship.default 0) 0 1)
    as (d' & Hd & _ & _ & Hsat & _); [reflexivity | lra |].
  exists d'. split; [exact Hd | apply Hsat; lra].
Defined.




(** X3: [Ship::processTurn] never creates or removes the ship's node, and
    keeps the animation frame inside the film strip: a frame between
    SHIP_IMG_LEFT and SHIP_IMG_RIGHT moves by at most one step and stays
    in that range.  A positive turn moves it one step toward
    SHIP_IMG_RIGHT, a negative turn one step toward SHIP_IMG_LEFT, and no
    turn one step toward SHIP_IMG_FLAT, where it rests. *)
Theorem processTurn_frame (s : Ship.t) (turn : float) :
  (Ship.shipNode s = None -> Ship.shipNode (Ship.processTurn s turn) = None) /\
  (forall f : Z,
     Ship.shipNode s = Some f ->
     (Ship.SHIP_IMG_LEFT <= f <= Ship.SHIP_IMG_RIGHT)%Z ->
     exists f', Ship.shipNode (Ship.processTurn s turn) = Some f' /\
                (Ship.SHIP_IMG_LEFT <= f' <= Ship.SHIP_IMG_RIGHT)%Z /\
                (Z.abs (f' - f) <= 1)%Z /\
                (forall t, turn = Fin t -> (0 < t)%R ->
                           f' = Z.min (f + 1) Ship.SHIP_IMG_RIGHT) /\
                (forall t, turn = Fin t -> (t < 0)%R ->
                           f' = Z.max (f - 1) Ship.SHIP_IMG_LEFT) /\
                (turn = Fin 0 ->
                 f' = (f + Z.sgn (Ship.SHIP_IMG_FLAT - f))%Z)).
Proof.
  unfold Ship.SHIP_IMG_LEFT, Ship.SHIP_IMG_RIGHT, Ship.SHIP_IMG_FLAT.
  split.
  - intros Hn. unfold Ship.processTurn.
    destruct s as [p v a d r rad m id node]. cbn in Hn. subst node.
    destruct (F.ne turn (Fin 0)); fcbn.
    + destruct (F.lt (F.sub d _) _); fcbn;
        [| destruct (F.gt (F.sub d _) _); fcbn]; done.
    + destruct (F.ne d (Fin 0)); fcbn; done.
  - intros f Hf Hr.
    assert (Ship.shipNode (Ship.processTurn s turn) =
            Some (if F.ne turn (Fin 0) then
                    if F.gt turn (Fin 0) && (f <? 17)%Z then (f + 1)%Z
                    else if F.lt turn (Fin 0) && (0 <? f)%Z then (f - 1)%Z
                    else f
                  else if (f <? 9)%Z then (f + 1)%Z
                       else if (9 <? f)%Z then (f - 1)%Z else f)) as Hres.
    { unfold Ship.processTurn, Ship.SHIP_IMG_LEFT, Ship.SHIP_IMG_RIGHT,
        Ship.SHIP_IMG_FLAT.
      destruct s as [p v a d r rad m id node]. cbn in Hf. subst node.
      destruct (F.ne turn (Fin 0)); fcbn.
      - destruct (F.lt (F.sub d _) _); fcbn;
          [| destruct (F.gt (F.sub d _) _); fcbn]; done.
      - destruct (F.ne d (Fin 0)); fcbn; done. }
    eexists. split; [exact Hres|].
    split; [|split; [|split_and!]].
    + destruct (F.ne turn (Fin 0)), (F.gt turn (Fin 0)), (F.lt turn (Fin 0));
        cbn [andb];
        repeat match goal with
               | |- context [(?a <? ?b)%Z] => destruct (Z.ltb_spec a b)
               end; lia.
    + destruct (F.ne turn (Fin 0)), (F.gt turn (Fin 0)), (F.lt turn (Fin 0));
        cbn [andb];
        repeat match goal with
               | |- context [(?a <? ?b)%Z] => destruct (Z.ltb_spec a b)
               end; lia.
    + intros t -> Ht.
      assert (F.ne (Fin t) (Fin 0) = true) as -> by (apply F_ne_Fin; lra).
      assert (F.gt (Fin t) (Fin 0) = true) as -> by (by apply F_lt_Fin).
      cbn [andb]. destruct (Z.ltb_spec f 17); [lia|].
      assert (F.lt (Fin t) (Fin 0) = false) as ->
        by (apply F_lt_Fin_false; lra).
      cbn [andb]. lia.
    + intros t -> Ht.
      assert (F.ne (Fin t) (Fin 0) = true) as -> by (apply F_ne_Fin; lra).
      assert (F.gt (Fin t) (Fin 0) = false) as ->
        by (apply F_lt_Fin_false; lra).
      assert (F.lt (Fin t) (Fin 0) = true) as -> by (by apply F_lt_Fin).
      cbn [andb]. destruct (Z.ltb_spec 0 f); lia.
    + intros ->.
      assert (F.ne (Fin 0) (Fin 0) = false) as ->
        by (by apply negb_false_iff, F_eq_Fin).
      destruct (Z.ltb_spec f 9); [lia|]. destruct (Z.ltb_spec 9 f); lia.
Qed.

Lemma processTurn_frame_witness :
  exists f', Ship.shipNode (Ship.processTurn ship_with_node (Fin 1)) = Some f' /\
             f' = Z.min (9 + 1) Ship.SHIP_IMG_RIGHT.
Proof.
  destruct (processTurn_frame ship_with_node (Fin 1)) as (_ & Hframe).
  destruct (Hframe 9%Z eq_refl) as (f' & Hf & _ & _ & Hright & _);
    [unfold Ship.SHIP_IMG_LEFT, Ship.SHIP_IMG_RIGHT; lia|].
  exists f'. split; [exact Hf | apply (Hright 1%R eq_refl); lra].
Defined.

(** ** Ship::move over many frames *)

Lemma move_fields (RR : Z) (s : Ship.t) (forward turn : float) :
  Ship.dang (Ship.move RR s forward turn) = Ship.dang (Ship.processTurn s turn) /\
  Ship.pos (Ship.move RR s forward turn) =
    Vec2.add (Ship.pos s) (Ship.vel (Ship.move RR s forward turn)) /\
  Ship.radius (Ship.move RR s forward turn) = Ship.radius s /\
  Ship.mass (Ship.move RR s forward turn) = Ship.mass s /\
  Ship.sid (Ship.move RR s forward turn) = Ship.sid s.
Proof.
  destruct (processTurn_fields s turn) as (Hp & _).
  assert (Ship.radius (Ship.processTurn s turn) = Ship.radius s /\
          Ship.mass (Ship.processTurn s turn) = Ship.mass s /\
          Ship.sid (Ship.processTurn s turn) = Ship.sid s) as (Hr & Hm & Hi).
  { unfold Ship.processTurn.
    destruct (F.ne turn (Fin 0)); fcbn.
    - destruct (F.lt (F.sub _ _) _); fcbn;
        [| destruct (F.gt (F.sub _ _) _); fcbn]; done.
    - destruct (F.ne (Ship.dang s) (Fin 0)); fcbn; done. }
  unfold Ship.move. rewrite <- Hp, <- Hr, <- Hm, <- Hi.
  generalize (Ship.processTurn s turn) as p. intros p.
  destruct (F.ne forward (Fin 0)); fcbn;
    (destruct (F.gt (F.add (Ship.ang p) (Ship.dang p)) (Fin 360)); fcbn;
     destruct (F.lt _ (Fin 0)); fcbn; destruct (Z.leb _ _); done).
Qed.

Lemma move_steady (RR : Z) (s : Ship.t) (forward : float) (t : R) :
  steady s -> steady (Ship.move RR s forward (Fin t)).
Proof.
  intros (a & d & Ha & Hd & Hra & Hrd).
  destruct (processTurn_dang s d t Hd Hrd) as (d' & Hd' & Hrd').
  destruct (move_fields RR s forward (Fin t)) as (Hdang & _).
  unfold steady. rewrite Hdang, move_ang, Ha, Hd'. fcbn.
  destruct (F.gt _ (Fin 360)) eqn:Hhi.
  - apply F_lt_Fin in Hhi. fcbn.
    destruct (F.lt _ (Fin 0)) eqn:Hlo.
    + apply F_lt_Fin in Hlo. lra.
    + eexists _, d'. split_and!; try done; lra.
  - apply F_lt_Fin_false in Hhi.
    destruct (F.lt _ (Fin 0)) eqn:Hlo.
    + apply F_lt_Fin in Hlo. eexists _, d'. split_and!; try done; lra.
    + apply F_lt_Fin_false in Hlo. eexists _, d'. split_and!; try done; lra.
Qed.

(** X4: a facing angle in the closed interval [0, 360] together with an
    angular rate in [-MAXIMUM_BANK, MAXIMUM_BANK] is an invariant of
    [Ship::move]: it holds again after the call for any forward input and
    any turn input that is a number, hence after any number of frames; the
    ship of the constructor satisfies it. *)
Theorem move_keeps_angle_and_bank (RR : Z) (s : Ship.t)
  (intents : list (float * float)) :
  steady s ->
  Forall (fun i => F.is_nan (snd i) = false) intents ->
  steady (fly RR s intents) /\ steady (Ship.default (Ship.sid s)).
Proof.
  intros Hs Hfin. split.
  - revert s Hs. induction Hfin as [|[f t] l Ht _ IH]; intros s Hs; [done|].
    cbn [fly foldl fst snd]. apply IH. cbn in Ht.
    destruct t as [t|]; [|done]. by apply move_steady.
  - exists 0%R, 0%R. cbn. split_and!; try done; lra.
Qed.

Lemma move_keeps_angle_and_bank_witness :
  steady (fly 3 ship_at_355 [(Fin 1, Fin (-1)); (Fin 0, Fin 0)]).
Proof.
  apply (move_keeps_angle_and_bank 3 ship_at_355).
  - exists 355%R, 5%R. split_and!; try done; lra.
  - repeat constructor.
Defined.

(** X5: over [n] frames the refire counter of a ship counts up from its
    value [r], 0 <= r <= RELOAD_RATE + 1, and stops at RELOAD_RATE + 1: it
    is min (r + n) (RELOAD_RATE + 1), whatever the inputs. *)
Theorem refire_after_frames (RR : Z) (s : Ship.t)
  (intents : list (float * float)) :
  (0 <= RR < 2 ^ 31 - 1)%Z ->
  (0 <= Ship.refire s <= RR + 1)%Z ->
  Ship.refire (fly RR s intents) =
  Z.min (Ship.refire s + Z.of_nat (length intents)) (RR + 1).
Proof.
  intros HRR. revert s. induction intents as [|[f t] l IH]; intros s Hr.
  - cbn [fly foldl length]. lia.
  - cbn [fly foldl fst snd length].
    change (foldl _ (Ship.move RR s f t) l) with (fly RR (Ship.move RR s f t) l).
    assert (Ship.refire (Ship.move RR s f t) =
            Z.min (Ship.refire s + 1) (RR + 1)) as Hstep.
    { rewrite move_refire.
      destruct (Z.leb_spec (Ship.refire s) RR).
      - rewrite wrap_int_small by lia. lia.
      - lia. }
    rewrite IH by lia. lia.
Qed.

Lemma refire_after_frames_witness :
  Ship.refire (fly 3 (Ship.default 0) [(Fin 0, Fin 0); (Fin 1, Fin 1)]) =
  Z.min (Ship.refire (Ship.default 0) + Z.of_nat 2) (3 + 1).
Proof.
  apply (refire_after_frames 3 (Ship.default 0)
           [(Fin 0, Fin 0); (Fin 1, Fin 1)]); cbn; lia.
Defined.




(** ** Ship::acquireTarget *)

Lemma acquireTarget_Fin (sx sy ox oy : R) (s other : Ship.t) :
  Ship.pos s = Vec2.mk (Fin sx) (Fin sy) ->
  Ship.pos other = Vec2.mk (Fin ox) (Fin oy) ->
  let d := sqrt ((ox - sx) * (ox - sx) + (oy - sy) * (oy - sy)) in
  Ship.acquireTarget s other =
  if Req_dec_T d 0 then Vec2.mk (Fin ((ox - sx) * 100)) (Fin ((oy - sy) * 100))
  else Vec2.mk (Fin ((ox - sx) * (1 / d) * 100)) (Fin ((oy - sy) * (1 / d) * 100)).
Proof.
  intros Hs Ho d. unfold Ship.acquireTarget, Ship.TARGET_DIST, F.of_Z.
  rewrite Hs, Ho, sub_Fin, normalize_Fin. fold d.
  destruct (Req_dec_T d 0); by rewrite scale_Fin.
Qed.

(** Negating a displacement negates what is computed from it. *)
Lemma F_sub_swap (a b : float) : F.sub b a = F.neg (F.sub a b).
Proof. destruct a, b; try done. cbn. f_equal. lra. Qed.

Lemma F_mul_neg_neg (a : float) : F.mul (F.neg a) (F.neg a) = F.mul a a.
Proof. destruct a; [|done]. cbn. f_equal. lra. Qed.

Lemma F_mul_neg_l (a k : float) : F.mul (F.neg a) k = F.neg (F.mul a k).
Proof. destruct a, k; try done. cbn. f_equal. lra. Qed.

Lemma normalize_opposite (v : Vec2.t) :
  Vec2.normalize (Vec2.mk (F.neg (Vec2.x v)) (F.neg (Vec2.y v))) =
  Vec2.mk (F.neg (Vec2.x (Vec2.normalize v)))
          (F.neg (Vec2.y (Vec2.normalize v))).
Proof.
  unfold Vec2.normalize, Vec2.length. cbn [Vec2.x Vec2.y].
  rewrite !F_mul_neg_neg.
  destruct (F.eq _ (Fin 0)); [done|].
  unfold Vec2.scale. cbn [Vec2.x Vec2.y]. by rewrite !F_mul_neg_l.
Qed.

(** X8: the target offsets that [Ship::acquireTarget] computes for the two
    ships are opposite to each other, component by component, whatever
    the positions.  For ships at finite positions the offset of a ship
    never points away from its opponent on either axis, and it is zero
    when the two positions are the same. *)
Theorem acquireTarget_offset (s other : Ship.t) :
  Vec2.x (Ship.acquireTarget other s) =
    F.neg (Vec2.x (Ship.acquireTarget s other)) /\
  Vec2.y (Ship.acquireTarget other s) =
    F.neg (Vec2.y (Ship.acquireTarget s other)) /\
  (forall sx sy ox oy : R,
     Ship.pos s = Vec2.mk (Fin sx) (Fin sy) ->
     Ship.pos other = Vec2.mk (Fin ox) (Fin oy) ->
     exists tx ty,
       Ship.acquireTarget s other = Vec2.mk (Fin tx) (Fin ty) /\
       (0 <= tx * (ox - sx))%R /\ (0 <= ty * (oy - sy))%R /\
       (Ship.pos s = Ship.pos other -> tx = 0%R /\ ty = 0%R)).
Proof.
  assert (Ship.acquireTarget other s =
          Vec2.mk (F.neg (Vec2.x (Ship.acquireTarget s other)))
                  (F.neg (Vec2.y (Ship.acquireTarget s other)))) as Hopp.
  { unfold Ship.acquireTarget.
    assert (Vec2.sub (Ship.pos s) (Ship.pos other) =
            Vec2.mk (F.neg (Vec2.x (Vec2.sub (Ship.pos other) (Ship.pos s))))
                    (F.neg (Vec2.y (Vec2.sub (Ship.pos other) (Ship.pos s)))))
      as -> by (unfold Vec2.sub; cbn [Vec2.x Vec2.y]; f_equal; apply F_sub_swap).
    rewrite normalize_opposite. unfold Vec2.scale. cbn [Vec2.x Vec2.y].
    by rewrite !F_mul_neg_l. }
  split; [by rewrite Hopp|]. split; [by rewrite Hopp|].
  intros sx sy ox oy Hs Ho.
  pose proof (acquireTarget_Fin sx sy ox oy s other Hs Ho) as Hso.
  cbv zeta in Hso.
  set (dx := (ox - sx)%R) in *. set (dy := (oy - sy)%R) in *.
  pose proof (dist_nonneg dx dy) as Hd0.
  pose proof (dist_zero_iff dx dy) as Hz.
  set (d := sqrt (dx * dx + dy * dy)) in *.
  destruct (Req_dec_T d 0) as [Hd | Hd].
  - apply Hz in Hd as (Hx & Hy).
    eexists _, _. split; [exact Hso|]. rewrite Hx, Hy.
    split_and!; [lra | lra | intros _; lra].
  - eexists _, _. split; [exact Hso|].
    assert (0 < 1 / d * 100)%R as Hk
      by (apply Rmult_lt_0_compat; [apply Rdiv_lt_0_compat|]; lra).
    split_and!.
    + replace (dx * (1 / d) * 100 * dx)%R with ((1 / d * 100) * (dx * dx))%R
        by lra.
      apply Rmult_le_pos; [lra | nra].
    + replace (dy * (1 / d) * 100 * dy)%R with ((1 / d * 100) * (dy * dy))%R
        by lra.
      apply Rmult_le_pos; [lra | nra].
    + intros Heq. exfalso. apply Hd, Hz. rewrite Hs, Ho in Heq.
      injection Heq as Hx Hy. subst dx dy. lra.
Qed.

Lemma acquireTarget_offset_witness :
  exists tx ty,
    Ship.acquireTarget ship_left ship_right = Vec2.mk (Fin tx) (Fin ty) /\
    (0 <= tx * (70 - 0))%R /\ (0 <= ty * (0 - 0))%R /\
    (Ship.pos ship_left = Ship.pos ship_right -> tx = 0%R /\ ty = 0%R).
Proof.
  apply (acquireTarget_offset ship_left ship_right); reflexivity.
Defined.

(** ** checkInBounds *)

Lemma checkInBounds_axes (s : Ship.t) (b : collisions.Rect) :
  Ship.pos (collisions.checkInBounds s b) =
    Vec2.mk
      (reflect_pos (Vec2.x (Ship.pos s)) (collisions.origin_x b)
         (collisions.size_width b))
      (reflect_pos (Vec2.y (Ship.pos s)) (collisions.origin_y b)
         (collisions.size_height b)) /\
  Ship.vel (collisions.checkInBounds s b) =
    Vec2.mk
      (reflect_vel (Vec2.x (Ship.pos s)) (Vec2.x (Ship.vel s))
         (collisions.origin_x b) (collisions.size_width b))
      (reflect_vel (Vec2.y (Ship.pos s)) (Vec2.y (Ship.vel s))
         (collisions.origin_y b) (collisions.size_height b)).
Proof.
  unfold collisions.checkInBounds, Ship.getVelocity, Ship.getPosition,
    reflect_pos, reflect_vel.
  destruct s as [[px py] [vx vy] a d r rad m id node]. fcbn.
  destruct (F.le px (collisions.origin_x b));
    [| destruct (F.ge px _)]; fcbn;
    (destruct (F.le py (collisions.origin_y b));
     [| destruct (F.ge py _)]); fcbn; done.
Qed.

Lemma bouncePhoton_axes (p : Photon.t) (b : collisions.Rect) :
  collisions.bouncePhoton p b =
  Photon.mk
    (Vec2.mk
       (reflect_pos (Vec2.x (Photon.pos p)) (collisions.origin_x b)
          (collisions.size_width b))
       (reflect_pos (Vec2.y (Photon.pos p)) (collisions.origin_y b)
          (collisions.size_height b)))
    (Vec2.mk
       (reflect_vel (Vec2.x (Photon.pos p)) (Vec2.x (Photon.vel p))
          (collisions.origin_x b) (collisions.size_width b))
       (reflect_vel (Vec2.y (Photon.pos p)) (Vec2.y (Photon.vel p))
          (collisions.origin_y b) (collisions.size_height b)))
    (Photon.ship p) (Photon.age p) (Photon.scale p).
Proof.
  unfold collisions.bouncePhoton, reflect_pos, reflect_vel.
  destruct p as [[px py] [vx vy] id age sc]. fcbn.
  destruct (F.le px (collisions.origin_x b));
    [| destruct (F.ge px _)]; fcbn;
    (destruct (F.le py (collisions.origin_y b));
     [| destruct (F.ge py _)]); fcbn; done.
Qed.

Lemma reflect_vel_speed (p v lo w : float) :
  reflect_vel p v lo w = v \/ reflect_vel p v lo w = F.neg v.
Proof.
  unfold reflect_vel. destruct (F.le p lo); [by right|].
  destruct (F.ge p (F.add w lo)); [by right | by left].
Qed.

(** X9: [checkInBounds(ship, bounds)] puts a ship back into the
    rectangle.  For a ship whose position is a number and a rectangle
    whose far-edge clamp target, far edge - 1 as the code computes it, is
    not below its low edge on either axis, the ship ends with
    origin <= position <= origin + size on both axes.  Each velocity
    component is the old one or its negation, so the speed is unchanged.
    The condition on the rectangle is stated on the computed values; in
    exact arithmetic it says that the rectangle is at least one unit wide
    and high. *)
Theorem checkInBounds_inside (s : Ship.t) (b : collisions.Rect)
  (px py : R) :
  Ship.pos s = Vec2.mk (Fin px) (Fin py) ->
  let far_x := F.add (collisions.size_width b) (collisions.origin_x b) in
  let far_y := F.add (collisions.size_height b) (collisions.origin_y b) in
  F.le (collisions.origin_x b) (F.sub far_x (Fin 1)) = true ->
  F.le (collisions.origin_y b) (F.sub far_y (Fin 1)) = true ->
  let s' := collisions.checkInBounds s b in
  F.le (collisions.origin_x b) (Vec2.x (Ship.pos s')) = true /\
  F.le (Vec2.x (Ship.pos s')) far_x = true /\
  F.le (collisions.origin_y b) (Vec2.y (Ship.pos s')) = true /\
  F.le (Vec2.y (Ship.pos s')) far_y = true /\
  (Vec2.x (Ship.vel s') = Vec2.x (Ship.vel s) \/
   Vec2.x (Ship.vel s') = F.neg (Vec2.x (Ship.vel s))) /\
  (Vec2.y (Ship.vel s') = Vec2.y (Ship.vel s) \/
   Vec2.y (Ship.vel s') = F.neg (Vec2.y (Ship.vel s))).
Proof.
  intros Hp far_x far_y Hx Hy s'. subst s'.
  destruct (checkInBounds_axes s b) as (Hpos & Hvel).
  rewrite Hpos, Hvel, Hp. cbn [Vec2.x Vec2.y].
  assert (forall (p : R) (lo w : float),
            F.le lo (F.sub (F.add w lo) (Fin 1)) = true ->
            F.le lo (reflect_pos (Fin p) lo w) = true /\
            F.le (reflect_pos (Fin p) lo w) (F.add w lo) = true) as Hin.
  { clear. intros p lo w Hle. unfold reflect_pos.
    destruct lo as [l|]; [|done].
    destruct (F.add w (Fin l)) as [f|] eqn:Hf; [|done].
    cbn [F.sub F.lift2] in *. apply F_le_Fin in Hle.
    destruct (F.le (Fin p) (Fin l)) eqn:Hlo.
    - split; apply F_le_Fin; lra.
    - apply F_le_Fin_false in Hlo.
      destruct (F.ge (Fin p) (Fin f)) eqn:Hhi.
      + split; apply F_le_Fin; lra.
      + apply F_le_Fin_false in Hhi. split; apply F_le_Fin; lra. }
  destruct (Hin px _ _ Hx) as (Hx1 & Hx2).
  destruct (Hin py _ _ Hy) as (Hy1 & Hy2).
  split_and!; try done; apply reflect_vel_speed.
Qed.

Lemma checkInBounds_inside_witness :
  F.le (collisions.origin_x playfield)
       (Vec2.x (Ship.pos (collisions.checkInBounds ship_on_left_edge playfield)))
  = true.
Proof.
  apply (checkInBounds_inside ship_on_left_edge playfield 0 50 eq_refl);
    apply F_le_Fin; lra.
Defined.

(** X10: [checkInBounds] called twice in a row.  A ship at or beyond the
    low edge is clamped onto the edge, where the test [pos <= origin] holds
    again: the second call negates the velocity component once more and so
    restores it.  A ship at or beyond the far edge is clamped to the far
    edge minus 1, and when that position lies strictly between the two
    edges the second call leaves the axis alone. *)
Theorem checkInBounds_twice (s : Ship.t) (b : collisions.Rect) :
  let lo := collisions.origin_x b in
  let far := F.add (collisions.size_width b) (collisions.origin_x b) in
  let px := Vec2.x (Ship.pos s) in
  let vx := Vec2.x (Ship.vel s) in
  let s1 := collisions.checkInBounds s b in
  let s2 := collisions.checkInBounds s1 b in
  (F.le px lo = true ->
   Vec2.x (Ship.pos s1) = lo /\ Vec2.x (Ship.vel s1) = F.neg vx /\
   Vec2.x (Ship.pos s2) = lo /\ Vec2.x (Ship.vel s2) = vx) /\
  (F.le px lo = false -> F.ge px far = true ->
   F.lt lo (F.sub far (Fin 1)) = true ->
   F.lt (F.sub far (Fin 1)) far = true ->
   Vec2.x (Ship.pos s1) = F.sub far (Fin 1) /\
   Vec2.x (Ship.vel s1) = F.neg vx /\
   Vec2.x (Ship.pos s2) = F.sub far (Fin 1) /\
   Vec2.x (Ship.vel s2) = F.neg vx).
Proof.
  intros lo far px vx s1 s2. subst lo far px vx s1 s2.
  destruct (checkInBounds_axes (collisions.checkInBounds s b) b) as (Hp2 & Hv2).
  destruct (checkInBounds_axes s b) as (Hp1 & Hv1).
  rewrite Hp2, Hv2, Hp1, Hv1. cbn [Vec2.x Vec2.y].
  unfold reflect_pos, reflect_vel.
  split.
  - intros Hlow. rewrite Hlow.
    assert (F.le (collisions.origin_x b) (collisions.origin_x b) = true)
      as Hrefl.
    { destruct (Vec2.x (Ship.pos s)) as [p|]; [|done].
      destruct (collisions.origin_x b) as [l|]; [|done].
      apply F_le_Fin. lra. }
    rewrite Hrefl. split_and!; try done.
    destruct (Vec2.x (Ship.vel s)) as [v|]; [|done].
    cbn. f_equal. lra.
  - intros Hlow Hfar Hlo1 Hhi1. rewrite Hlow, Hfar.
    apply F_lt_true_finite in Hlo1 as (l & t & Hl & Ht & Hlt).
    rewrite Ht in Hhi1.
    apply F_lt_true_finite in Hhi1 as (t' & f & [= <-] & Hf & Htf).
    rewrite Ht, Hf, Hl.
    assert (F.le (Fin t) (Fin l) = false) as ->
      by (apply F_le_Fin_false; lra).
    assert (F.ge (Fin t) (Fin f) = false) as ->
      by (apply F_le_Fin_false; lra).
    done.
Qed.

Lemma checkInBounds_twice_witness :
  Vec2.x (Ship.pos (collisions.checkInBounds ship_on_left_edge playfield)) =
    collisions.origin_x playfield /\
  Vec2.x (Ship.vel (collisions.checkInBounds ship_on_left_edge playfield)) =
    F.neg (Vec2.x (Ship.vel ship_on_left_edge)) /\
  Vec2.x (Ship.pos (collisions.checkInBounds
                      (collisions.checkInBounds ship_on_left_edge playfield)
                      playfield)) = collisions.origin_x playfield /\
  Vec2.x (Ship.vel (collisions.checkInBounds
                      (collisions.checkInBounds ship_on_left_edge playfield)
                      playfield)) = Vec2.x (Ship.vel ship_on_left_edge).
Proof.
  apply (checkInBounds_twice ship_on_left_edge playfield).
  apply F_le_Fin. lra.
Defined.

(** ** checkInBounds on the photon queue *)

Lemma foldl_rewriteAt (f : Photon.t -> Photon.t) (l : list nat)
  (q : PhotonQueue.t) :
  PhotonQueue.wf q -> NoDup l ->
  let q' := foldl (rewriteAt f) q l in
  PhotonQueue.wf q' /\
  PhotonQueue.qhead q' = PhotonQueue.qhead q /\
  PhotonQueue.qtail q' = PhotonQueue.qtail q /\
  PhotonQueue.qsize q' = PhotonQueue.qsize q /\
  PhotonQueue.capacity q' = PhotonQueue.capacity q /\
  PhotonQueue.texture q' = PhotonQueue.texture q /\
  forall j, PhotonQueue.get q' j =
            if bool_decide (j ∈ l) then f <$> PhotonQueue.get q j
            else PhotonQueue.get q j.
Proof.
  revert q. induction l as [|i l IH]; intros q Hwf Hnd q'; subst q';
    cbn [foldl].
  - split_and!; done.
  - apply NoDup_cons in Hnd as (Hi & Hnd).
    assert (PhotonQueue.wf (rewriteAt f q i) /\
            PhotonQueue.qhead (rewriteAt f q i) = PhotonQueue.qhead q /\
            PhotonQueue.qtail (rewriteAt f q i) = PhotonQueue.qtail q /\
            PhotonQueue.qsize (rewriteAt f q i) = PhotonQueue.qsize q /\
            PhotonQueue.capacity (rewriteAt f q i) = PhotonQueue.capacity q /\
            PhotonQueue.texture (rewriteAt f q i) = PhotonQueue.texture q /\
            PhotonQueue.get (rewriteAt f q i) i = f <$> PhotonQueue.get q i /\
            forall j, j <> i ->
              PhotonQueue.get (rewriteAt f q i) j = PhotonQueue.get q j)
      as (Hwf1 & Hh1 & Ht1 & Hs1 & Hc1 & Hx1 & Hat & Hoff).
    { unfold rewriteAt. destruct (PhotonQueue.get q i) as [p|] eqn:Hp.
      - destruct (put_fields q i (f p)) as (? & ? & ? & ? & ?).
        split_and!; try done.
        + by apply put_wf.
        + by apply (get_put_at q i p).
        + intros j Hj. apply get_put_ne; [done | | done].
          by apply get_Some_lt in Hp as [? _].
      - split_and!; try done; by rewrite Hp. }
    destruct (IH (rewriteAt f q i) Hwf1 Hnd)
      as (Hwf' & Hh & Ht & Hs & Hc & Hx & Hget).
    split_and!; try congruence.
    intros j. rewrite Hget.
    destruct (decide (j = i)) as [-> | Hji].
    + rewrite (bool_decide_eq_false_2 (i ∈ l)) by done.
      rewrite (bool_decide_eq_true_2 (i ∈ i :: l))
        by (apply elem_of_cons; left; reflexivity).
      done.
    + rewrite (Hoff j Hji).
      destruct (decide (j ∈ l)) as [Hin | Hnin].
      * rewrite !bool_decide_eq_true_2;
          [done | by (apply elem_of_cons; right) | done].
      * rewrite !bool_decide_eq_false_2; [done | | done].
        intros [?|?]%elem_of_cons; done.
Qed.

(** X11: [checkInBounds(photons, bounds)] on a well-formed queue reflects
    every live photon exactly as [checkInBounds(ship, bounds)] reflects a
    ship with the same position and velocity, and does nothing else: the
    live count, the head and the tail are unchanged, and every photon keeps
    its place, owner, age and scale, so no photon is destroyed at a
    wall. *)
Theorem checkInBoundsPhotons_reflects (q : PhotonQueue.t) (b : collisions.Rect) :
  PhotonQueue.wf q ->
  let q' := collisions.checkInBoundsPhotons q b in
  PhotonQueue.wf q' /\
  PhotonQueue.size q' = PhotonQueue.size q /\
  PhotonQueue.qhead q' = PhotonQueue.qhead q /\
  PhotonQueue.qtail q' = PhotonQueue.qtail q /\
  (forall i, PhotonQueue.get q' i =
             (fun p => collisions.bouncePhoton p b) <$> PhotonQueue.get q i) /\
  (forall i p (s : Ship.t),
     PhotonQueue.get q i = Some p ->
     Ship.pos s = Photon.pos p -> Ship.vel s = Photon.vel p ->
     exists p', PhotonQueue.get q' i = Some p' /\
                Photon.pos p' = Ship.pos (collisions.checkInBounds s b) /\
                Photon.vel p' = Ship.vel (collisions.checkInBounds s b) /\
                Photon.ship p' = Photon.ship p /\
                Photon.age p' = Photon.age p /\
                Photon.scale p' = Photon.scale p).
Proof.
  intros Hwf q'.
  destruct (foldl_rewriteAt (fun p => collisions.bouncePhoton p b)
              (seq 0 (PhotonQueue.qsize q)) q Hwf (NoDup_seq _ _))
    as (Hwf' & Hh & Ht & Hs & _ & _ & Hget).
  change (foldl _ q (seq 0 (PhotonQueue.qsize q))) with q' in *.
  assert (forall i, PhotonQueue.get q' i =
            (fun p => collisions.bouncePhoton p b) <$> PhotonQueue.get q i)
    as Hget'.
  { intros i. rewrite Hget.
    destruct (decide (i ∈ seq 0 (PhotonQueue.qsize q))) as [Hin | Hnin].
    - by rewrite bool_decide_eq_true_2.
    - rewrite bool_decide_eq_false_2 by done.
      rewrite get_ge; [done|]. rewrite elem_of_seq in Hnin. lia. }
  split_and!; try done.
  intros i p s Hp Hpos Hvel. rewrite Hget', Hp. eexists. split; [done|].
  destruct (checkInBounds_axes s b) as (-> & ->).
  rewrite bouncePhoton_axes, Hpos, Hvel. done.
Qed.

Lemma checkInBoundsPhotons_reflects_witness :
  PhotonQueue.size (collisions.checkInBoundsPhotons one_photon_queue playfield)
  = PhotonQueue.size one_photon_queue.
Proof.
  apply (checkInBoundsPhotons_reflects one_photon_queue playfield
           one_photon_queue_wf).
Defined.

(** ** What checkForCollision(ship, photons) leaves alone *)

Lemma hitPhoton_frame (M : Z) (pr : float) (s : Ship.t) (p : Photon.t) :
  same_body s (fst (collisions.hitPhoton M pr s p)) /\
  (snd (collisions.hitPhoton M pr s p) = p \/
   snd (collisions.hitPhoton M pr s p) = Photon.destroy M p).
Proof.
  unfold collisions.hitPhoton, same_body. destruct (F.lt _ _); cbn.
  - split_and!; try done. by right.
  - split_and!; try done. by left.
Qed.

Lemma checkPhoton_frame (M : Z) (pr : float) (s : Ship.t)
  (q : PhotonQueue.t) (ii : nat) :
  let r := collisions.checkPhoton M pr (s, q) ii in
  same_body s (fst r) /\
  PhotonQueue.qhead (snd r) = PhotonQueue.qhead q /\
  PhotonQueue.qtail (snd r) = PhotonQueue.qtail q /\
  PhotonQueue.qsize (snd r) = PhotonQueue.qsize q /\
  PhotonQueue.texture (snd r) = PhotonQueue.texture q /\
  same_or_destroyed M (PhotonQueue.queue q) (PhotonQueue.queue (snd r)).
Proof.
  assert (same_or_destroyed M (PhotonQueue.queue q) (PhotonQueue.queue q))
    as Hrefl.
  { split; [done|]. intros c p' Hc. exists p'. split; [done | by left]. }
  intros r. subst r. unfold collisions.checkPhoton.
  destruct (PhotonQueue.get q ii) as [p|] eqn:Hp;
    [| by split_and!].
  destruct (negb _); [| by split_and!].
  destruct (hitPhoton_frame M pr s p) as (Hbody & Hphoton).
  destruct (collisions.hitPhoton M pr s p) as [s' p']. cbn [fst snd] in *.
  destruct (put_fields q ii p') as (Hh & Hs & Ht & Hx & _).
  split_and!; try done.
  apply get_Some_lt in Hp as (_ & Hcell).
  unfold PhotonQueue.put. cbn [PhotonQueue.queue PhotonQueue.set_queue].
  split; [by rewrite length_insert|].
  intros c a Hc.
  destruct (decide (c = PhotonQueue.slot q ii)) as [-> | Hne].
  - rewrite list_lookup_insert_eq in Hc by (by apply lookup_lt_Some in Hcell).
    injection Hc as <-. by exists p.
  - rewrite list_lookup_insert_ne in Hc by done.
    exists a. split; [done | by left].
Qed.

Lemma destroy_destroy (M : Z) (p : Photon.t) :
  Photon.destroy M (Photon.destroy M p) = Photon.destroy M p.
Proof. reflexivity. Qed.

(** X12: [checkForCollision(ship, photons)] changes nothing but the
    position and the velocity of the ship and the ages of photons.  The
    ship keeps SID, mass, radius, angle, angular rate, refire counter and
    node; the queue keeps its head, tail, live count and texture; and every
    cell of the vector holds the photon it held, either untouched or with
    its age set to MAX_AGE: no photon is moved, removed or deflected. *)
Theorem checkForCollisionPhotons_frame (M : Z) (s : Ship.t)
  (q : PhotonQueue.t) :
  let r := collisions.checkForCollisionPhotons M s q in
  same_body s (fst r) /\
  PhotonQueue.qhead (snd r) = PhotonQueue.qhead q /\
  PhotonQueue.qtail (snd r) = PhotonQueue.qtail q /\
  PhotonQueue.size (snd r) = PhotonQueue.size q /\
  PhotonQueue.texture (snd r) = PhotonQueue.texture q /\
  same_or_destroyed M (PhotonQueue.queue q) (PhotonQueue.queue (snd r)) /\
  (forall c p', PhotonQueue.queue (snd r) !! c = Some p' ->
     exists p, PhotonQueue.queue q !! c = Some p /\
               Photon.pos p' = Photon.pos p /\ Photon.vel p' = Photon.vel p /\
               Photon.ship p' = Photon.ship p /\
               Photon.scale p' = Photon.scale p /\
               (Photon.age p' = Photon.age p \/ Photon.age p' = M)).
Proof.
  intros r. subst r. unfold collisions.checkForCollisionPhotons,
    PhotonQueue.size.
  generalize (collisions.photonRadius q) as pr. intros pr.
  generalize (seq 0 (PhotonQueue.qsize q)) as l. intros l.
  assert (same_body s (fst (foldl (collisions.checkPhoton M pr) (s, q) l)) /\
          PhotonQueue.qhead (snd (foldl (collisions.checkPhoton M pr) (s, q) l))
            = PhotonQueue.qhead q /\
          PhotonQueue.qtail (snd (foldl (collisions.checkPhoton M pr) (s, q) l))
            = PhotonQueue.qtail q /\
          PhotonQueue.qsize (snd (foldl (collisions.checkPhoton M pr) (s, q) l))
            = PhotonQueue.qsize q /\
          PhotonQueue.texture (snd (foldl (collisions.checkPhoton M pr) (s, q) l))
            = PhotonQueue.texture q /\
          same_or_destroyed M (PhotonQueue.queue q)
            (PhotonQueue.queue
               (snd (foldl (collisions.checkPhoton M pr) (s, q) l)))) as Hall.
  { revert s q. induction l as [|i l IH]; intros s q; cbn [foldl].
    - split_and!; try done. split; [done|].
      intros c p' Hc. exists p'. split; [done | by left].
    - destruct (checkPhoton_frame M pr s q i)
        as (Hb & Hh & Ht & Hs & Hx & Hlen & Hcells).
      destruct (collisions.checkPhoton M pr (s, q) i) as [s1 q1].
      cbn [fst snd] in *.
      destruct (IH s1 q1) as (Hb' & Hh' & Ht' & Hs' & Hx' & Hlen' & Hcells').
      split_and!; try congruence.
      + unfold same_body in *. destruct Hb as (? & ? & ? & ? & ? & ? & ?).
        destruct Hb' as (? & ? & ? & ? & ? & ? & ?).
        split_and!; congruence.
      + split; [congruence|]. intros c p' Hc.
        destruct (Hcells' c p' Hc) as (p1 & Hp1 & Hrel1).
        destruct (Hcells c p1 Hp1) as (p & Hp & Hrel).
        exists p. split; [done|].
        destruct Hrel1 as [-> | ->], Hrel as [-> | ->]; auto. }
  destruct Hall as (Hb & Hh & Ht & Hs & Hx & Hsd).
  split_and!; try done.
  intros c p' Hc. destruct Hsd as (_ & Hcells).
  destruct (Hcells c p' Hc) as (p & Hp & [-> | ->]);
    exists p; split_and!; auto.
Qed.

(** X13: a photon out of reach has no effect.  If every live photon is
    the ship's own or lies at a center distance that is not less than the
    impact distance (ship radius plus scaled photon radius),
    [checkForCollision(ship, photons)] changes neither the ship nor the
    queue. *)
Theorem checkForCollisionPhotons_out_of_reach (M : Z) (s : Ship.t)
  (q : PhotonQueue.t) :
  (forall i p,
     PhotonQueue.get q i = Some p ->
     Photon.ship p = Ship.getSID s \/
     F.lt (Vec2.length (Vec2.sub (Ship.pos s) (Photon.pos p)))
          (F.add (Ship.radius s)
                 (F.mul (collisions.photonRadius q) (Photon.scale p)))
     = false) ->
  collisions.checkForCollisionPhotons M s q = (s, q).
Proof.
  intros Hall. unfold collisions.checkForCollisionPhotons.
  generalize (seq 0 (PhotonQueue.size q)). intros l.
  induction l as [|i l IH]; [done|]. cbn [foldl].
  assert (collisions.checkPhoton M (collisions.photonRadius q) (s, q) i
          = (s, q)) as ->; [|done].
  unfold collisions.checkPhoton.
  destruct (PhotonQueue.get q i) as [p|] eqn:Hp; [|done].
  destruct (Hall i p Hp) as [Hown | Hfar].
  - unfold Ship.getSID in *. by rewrite Hown, Z.eqb_refl.
  - destruct (negb _); [|done].
    unfold collisions.hitPhoton, Ship.getPosition, Ship.getRadius.
    rewrite Hfar. by rewrite put_same.
Qed.

Lemma checkForCollisionPhotons_out_of_reach_witness :
  collisions.checkForCollisionPhotons 5 ship_far_away one_photon_queue =
  (ship_far_away, one_photon_queue).
Proof.
  apply (checkForCollisionPhotons_out_of_reach 5 ship_far_away one_photon_queue).
  intros i p Hp. right. apply get_Some_lt in Hp as [Hi Hl].
  assert (i = 0%nat) as -> by (cbn in Hi; lia).
  cbn in Hl. injection Hl as <-.
  unfold ship_far_away, collisions.photonRadius, Photon.allocate. fcbn.
  rewrite sub_Fin, length_Fin.
  apply F_lt_Fin_false.
  replace ((500 - 0) * (500 - 0) + (0 - 0) * (0 - 0))%R with (500 * 500)%R
    by lra.
  rewrite sqrt_square; lra.
Defined.

Lemma checkForCollisionPhotons_frame_witness :
  PhotonQueue.size
    (snd (collisions.checkForCollisionPhotons 5 (ship_here 5 0) one_photon_queue))
  = PhotonQueue.size one_photon_queue.
Proof.
  apply (checkForCollisionPhotons_frame 5 (ship_here 5 0) one_photon_queue).
Defined.

(** ** More on checkForCollision(ship1, ship2) *)

(** The normal from the second ship to the first is the opposite of the
    normal from the first to the second. *)
Lemma normal_opposite (s1 s2 : Ship.t) :
  Vec2.finite (Ship.pos s1) -> Vec2.finite (Ship.pos s2) ->
  Ship.pos s1 <> Ship.pos s2 ->
  exists nx ny, normal s1 s2 = Vec2.mk (Fin nx) (Fin ny) /\
                normal s2 s1 = Vec2.mk (Fin (- nx)) (Fin (- ny)) /\
                (nx * nx + ny * ny = 1)%R.
Proof.
  intros (x1 & y1 & H1) (x2 & y2 & H2) Hne.
  unfold normal. rewrite H1, H2, !sub_Fin, !normalize_Fin.
  replace ((x2 - x1) * (x2 - x1) + (y2 - y1) * (y2 - y1))%R
    with ((x1 - x2) * (x1 - x2) + (y1 - y2) * (y1 - y2))%R by ring.
  set (dx := (x1 - x2)%R). set (dy := (y1 - y2)%R).
  assert (sqrt (dx * dx + dy * dy) <> 0)%R as Hd.
  { intros H0. apply dist_zero_iff in H0 as [Hx Hy]. apply Hne.
    rewrite H1, H2. subst dx dy. f_equal; f_equal; lra. }
  destruct (Req_dec_T _ 0) as [H0|_]; [done|].
  eexists _, _. split; [done|].
  generalize (dist_square dx dy).
  generalize dependent (sqrt (dx * dx + dy * dy)). intros d Hd Hsq.
  split.
  - subst dx dy. f_equal; f_equal; field; done.
  - replace (dx * (1 / d) * (dx * (1 / d)) + dy * (1 / d) * (dy * (1 / d)))%R
      with ((dx * dx + dy * dy) / (d * d))%R by (field; done).
    rewrite <- Hsq. field. done.
Qed.

Lemma F_add_comm (a b : float) : F.add a b = F.add b a.
Proof. destruct a, b; try done. cbn. f_equal. lra. Qed.

Lemma distance_sym (s1 s2 : Ship.t) :
  Vec2.finite (Ship.pos s1) -> Vec2.finite (Ship.pos s2) ->
  distance s2 s1 = distance s1 s2.
Proof.
  intros (x1 & y1 & H1) (x2 & y2 & H2). unfold distance.
  rewrite H1, H2, !sub_Fin, !length_Fin. f_equal. f_equal. ring.
Qed.

(** X16: the response between two ships does not depend on the order of
    the arguments: for finite ships of positive mass with distinct centers,
    [checkForCollision ship2 ship1] gives the two ships that
    [checkForCollision ship1 ship2] gives, swapped. *)
Theorem checkForCollision_symmetric (s1 s2 : Ship.t) :
  finite_ship s1 -> finite_ship s2 ->
  positive_mass s1 -> positive_mass s2 ->
  Ship.pos s1 <> Ship.pos s2 ->
  collisions.checkForCollision s2 s1 =
  (snd (collisions.checkForCollision s1 s2),
   fst (collisions.checkForCollision s1 s2)).
Proof.
  intros (Hp1 & Hv1) (Hp2 & Hv2) Hm1 Hm2 Hne.
  pose proof (distance_sym s1 s2 Hp1 Hp2) as Hd.
  assert (impactDistance s2 s1 = impactDistance s1 s2) as Hi
    by apply F_add_comm.
  destruct (normal_opposite s1 s2 Hp1 Hp2 Hne)
    as (nx & ny & Hn & Hn' & Hunit).
  rewrite !checkForCollision_unfold, Hd, Hi.
  destruct (F.lt (distance s1 s2) (impactDistance s1 s2)) eqn:Hlt; [|done].
  cbn [fst snd].
  apply F_lt_true_finite in Hlt as (d & rs & Hdist & Hrs & Hdrs).
  assert (halfOverlap s1 s2 = Fin ((rs - d) / 2)) as Hh.
  { unfold halfOverlap. rewrite Hdist, Hrs. cbn [F.sub F.lift2].
    apply F_div_Fin. lra. }
  assert (halfOverlap s2 s1 = Fin ((rs - d) / 2)) as Hh'.
  { unfold halfOverlap. rewrite Hd, Hi, Hdist, Hrs. cbn [F.sub F.lift2].
    apply F_div_Fin. lra. }
  apply positive_mass_Fin in Hm1 as (m1 & Hm1 & Hpos1).
  apply positive_mass_Fin in Hm2 as (m2 & Hm2 & Hpos2).
  destruct Hv1 as (u1 & w1 & Hv1), Hv2 as (u2 & w2 & Hv2).
  destruct Hp1 as (x1 & y1 & Hp1), Hp2 as (x2 & y2 & Hp2).
  assert (0 < 1 / m1)%R as Hi1 by (apply Rdiv_lt_0_compat; lra).
  assert (0 < 1 / m2)%R as Hi2 by (apply Rdiv_lt_0_compat; lra).
  set (J := (- (1 + 1 / 10) * (nx * (u1 - u2) + ny * (w1 - w2)) /
             (1 * (1 / m1 + 1 / m2)))%R).
  assert (impulse s1 s2 = Fin J) as Hj.
  { unfold impulse, collisions.COLLISION_COEFF.
    rewrite Hn, Hv1, Hv2, Hm1, Hm2, sub_Fin, !dot_Fin.
    rewrite !F_div_Fin by lra. cbn [F.add F.mul F.neg F.lift1 F.lift2].
    rewrite Hunit. by rewrite F_div_Fin by lra. }
  assert (impulse s2 s1 = Fin J) as Hj'.
  { unfold impulse, collisions.COLLISION_COEFF.
    rewrite Hn', Hv1, Hv2, Hm1, Hm2, sub_Fin, !dot_Fin.
    rewrite !F_div_Fin by lra. cbn [F.add F.mul F.neg F.lift1 F.lift2].
    replace (- nx * - nx + - ny * - ny)%R with 1%R
      by (rewrite <- Hunit; ring).
    rewrite F_div_Fin by lra. f_equal. unfold J. field. split; lra. }
  rewrite Hn, Hn', Hh, Hh', Hj, Hj', Hp1, Hp2, Hv1, Hv2, Hm1, Hm2.
  rewrite !F_div_Fin by lra.
  rewrite !scale_Fin, !add_Fin, !sub_Fin.
  replace (x2 + - nx * ((rs - d) / 2))%R with (x2 - nx * ((rs - d) / 2))%R
    by ring.
  replace (y2 + - ny * ((rs - d) / 2))%R with (y2 - ny * ((rs - d) / 2))%R
    by ring.
  replace (x1 - - nx * ((rs - d) / 2))%R with (x1 + nx * ((rs - d) / 2))%R
    by ring.
  replace (y1 - - ny * ((rs - d) / 2))%R with (y1 + ny * ((rs - d) / 2))%R
    by ring.
  replace (u2 + - nx * (J / m2))%R with (u2 - nx * (J / m2))%R by ring.
  replace (w2 + - ny * (J / m2))%R with (w2 - ny * (J / m2))%R by ring.
  replace (u1 - - nx * (J / m1))%R with (u1 + nx * (J / m1))%R by ring.
  replace (w1 - - ny * (J / m1))%R with (w1 + ny * (J / m1))%R by ring.
  done.
Qed.

Lemma checkForCollision_symmetric_witness :
  collisions.checkForCollision ship_right ship_left =
  (snd (collisions.checkForCollision ship_left ship_right),
   fst (collisions.checkForCollision ship_left ship_right)).
Proof.
  apply (checkForCollision_symmetric ship_left ship_right).
  - split; [by exists 0%R, 0%R | by exists 5%R, 0%R].
  - split; [by exists 70%R, 0%R | by exists (-5)%R, 0%R].
  - apply F_lt_Fin. lra.
  - apply F_lt_Fin. lra.
  - unfold ship_left, ship_right. cbn [Ship.pos]. intros [= H]. lra.
Defined.

(** ** InputController::readInput *)

Lemma readInput_numbers (keys : InputController.Keyboard)
  (c : InputController.t) :
  exists f t,
    InputController.getForward (InputController.readInput keys c) = Fin f /\
    InputController.getTurn (InputController.readInput keys c) = Fin t /\
    (f = -1 \/ f = 0 \/ f = 1)%R /\ (t = -1 \/ t = 0 \/ t = 1)%R.
Proof.
  unfold InputController.readInput, InputController.getForward,
    InputController.getTurn.
  destruct (InputController.player c =? 0)%Z; cbn;
    repeat match goal with
           | |- context [keys ?k] => destruct (keys k)
           end; cbn; eexists _, _; split_and!; try done; lra.
Qed.

(** X19: [readInput] (the keyboard build) yields a forward and a turn
    intent that are each -1, 0 or 1 and keeps the player id.  It forgets
    everything read before: two controllers of the same player give the
    same result on the same keyboard, whatever intents they held, so the
    result is a function of the player id and the keyboard alone, and
    reading the same keyboard again changes nothing.  Of the keyboard only
    the five keys of the controller's own player count: keyboards that
    agree on them give the same result, so the keys of the other player
    never steer this one.  Two opposite keys held together or released
    together cancel, and the fire flag is the state of the shoot key. *)
Theorem readInput_intents (keys : InputController.Keyboard)
  (c : InputController.t) :
  let c' := InputController.readInput keys c in
  InputController.getPlayer c' = InputController.getPlayer c /\
  (exists f t,
     InputController.getForward c' = Fin f /\
     InputController.getTurn c' = Fin t /\
     (f = -1 \/ f = 0 \/ f = 1)%R /\ (t = -1 \/ t = 0 \/ t = 1)%R) /\
  (forall c2 : InputController.t,
     InputController.getPlayer c2 = InputController.getPlayer c ->
     InputController.readInput keys c2 = c') /\
  InputController.readInput keys c' = c' /\
  (forall keys' : InputController.Keyboard,
     (forall k, k ∈ controls (InputController.getPlayer c) ->
                keys' k = keys k) ->
     InputController.readInput keys' c = c') /\
  (forall up down left_ right_ shoot,
     controls (InputController.getPlayer c)
       = [up; down; left_; right_; shoot] ->
     (keys up = keys down -> InputController.getForward c' = Fin 0) /\
     (keys left_ = keys right_ -> InputController.getTurn c' = Fin 0) /\
     InputController.didPressFire c' = keys shoot).
Proof.
  intros c'. split_and!.
  - subst c'. unfold InputController.readInput, InputController.getPlayer.
    by destruct (InputController.player c =? 0)%Z.
  - apply readInput_numbers.
  - intros c2 Hp. subst c'.
    unfold InputController.readInput, InputController.getPlayer in *.
    by rewrite Hp.
  - subst c'. unfold InputController.readInput.
    destruct (InputController.player c =? 0)%Z eqn:Hp; cbn; rewrite Hp; done.
  - intros keys' Hagree. subst c'.
    unfold controls, InputController.getPlayer in Hagree.
    unfold InputController.readInput.
    destruct (InputController.player c =? 0)%Z; cbn;
      rewrite !Hagree by (rewrite !elem_of_cons; auto 10);
      done.
  - intros up down left_ right_ shoot Hc. subst c'.
    unfold controls, InputController.getPlayer in Hc.
    unfold InputController.readInput, InputController.getForward,
      InputController.getTurn, InputController.didPressFire.
    destruct (InputController.player c =? 0)%Z; injection Hc as <- <- <- <- <-;
      cbn; split_and!; try (intros ->);
      repeat match goal with
             | |- context [keys ?k] => destruct (keys k)
             end; done.
Qed.

Lemma readInput_intents_witness :
  InputController.readInput
    (fun k =>
       match k with
       | InputController.ARROW_UP | InputController.SPACE => true
       | _ => false
       end)
    InputController.new
  = InputController.readInput keys_held InputController.new.
Proof.
  pose proof (readInput_intents keys_held InputController.new)
    as (_ & _ & _ & _ & Hown & _).
  apply Hown. intros k Hk. cbn in Hk.
  destruct k; try reflexivity.
  repeat (apply elem_of_cons in Hk as [Hk|Hk]; [discriminate Hk|]).
  by apply elem_of_nil in Hk.
Defined.

(** X20: the intents that [readInput] produces are always numbers, so a
    ship steered by them never leaves the steady range: starting from a
    facing angle in [0, 360] and an angular rate in [-5, 5], one
    [Ship::move] per frame on the intents read from any sequence of
    keyboard states keeps both within these ranges. *)
Theorem readInput_steers_steady (RR : Z) (c : InputController.t)
  (s : Ship.t) (keyboards : list InputController.Keyboard) :
  steady s ->
  steady (fly RR s (intents_of c keyboards)).
Proof.
  revert s. induction keyboards as [|keys l IH]; intros s Hs; [done|].
  cbn [intents_of map fly foldl fst snd]. apply IH.
  destruct (readInput_numbers keys c) as (f & t & _ & -> & _).
  by apply move_steady.
Qed.

Lemma readInput_steers_steady_witness :
  steady (fly 3 ship_at_355
            (intents_of InputController.new [keys_held; fun _ => false])).
Proof.
  apply (readInput_steers_steady 3 InputController.new ship_at_355).
  exists 355%R, 5%R. split_and!; try done; lra.
Defined.
